(** * MeshExplorer: the ClickHouse schema, its latest-state view and the
      wardrive put-sample route, embedded in Rocq.

    Two sources are embedded here.

    - The schema document (tables [meshcore_packets], [meshcore_adverts],
      the materialized view [meshcore_adverts_latest], the TTL, the
      documented queries).  A table is the list of its rows; a SELECT is
      a function of the rows it reads, in the order it reads them; an
      aggregate function is its per-row state update followed by a
      finalisation, as ClickHouse evaluates it.  The materialized view is
      its trigger, run on every inserted block, together with the
      storage the trigger writes to and the merges of that storage.
    - [src/app/api/wardrive/put-sample/route.ts]: the POST handler, over a
      model of parsed JSON values and of thrown values.

    The components the specification describes and the sources do not
    contain (record normalisation, the deduplicator, the neighbour graph
    deriver) are modelled from the specification and marked as such where
    they are defined. *)

From Stdlib Require Import ZArith Bool Lia Ascii String Floats.PrimFloat.
From stdpp Require Import gmap strings list sorting pretty.

Local Open Scope Z_scope.
Set Warnings "-inexact-float,-register-all,-clear-no-such-hyp".

(** ** Column types *)

(** [DateTime64(3)]: milliseconds since the Unix epoch. *)
Definition DateTime64 := Z.
(** [UInt8]; flags hold 0 or 1. *)
Definition UInt8 := Z.
(** [UInt64]: an integer in [0, 2^64). *)
Definition UInt64 := Z.
(** [Float64]: an IEEE binary64 value. *)
Definition Float64 := float.

(** ** [toYYYYMM]: the partition key of every table

    The calendar month of a timestamp as the number [year * 100 + month]
    (UTC).  The date is obtained from the day number by the usual
    era / day-of-era decomposition of the proleptic Gregorian calendar. *)

Definition ms_per_day : Z := 86400000.

Definition civil_year_month (days : Z) : Z * Z :=
  let z := days + 719468 in
  let era := z / 146097 in
  let doe := z - era * 146097 in
  let yoe := (doe - doe / 1460 + doe / 36524 - doe / 146096) / 365 in
  let y := yoe + era * 400 in
  let doy := doe - (365 * yoe + yoe / 4 - yoe / 100) in
  let mp := (5 * doy + 2) / 153 in
  let m := if mp <? 10 then mp + 3 else mp - 9 in
  (if m <=? 2 then y + 1 else y, m).

Definition toYYYYMM (t : DateTime64) : Z :=
  let '(y, m) := civil_year_month (t / ms_per_day) in y * 100 + m.

(** ** Table [meshcore_packets] *)

Module meshcore_packets.
Record row := Row {
  ingest_timestamp : DateTime64;
  mesh_timestamp : DateTime64;
  broker : string;
  topic : string;
  packet : string;
  payload : string;
  path_len : UInt8;
  path : string;
  route_type : UInt8;
  payload_type : UInt8;
  payload_version : UInt8;
  header : string;
  origin_pubkey : string
}.

(** [PARTITION BY toYYYYMM(ingest_timestamp)] *)
Definition partition_key (r : row) : Z := toYYYYMM (ingest_timestamp r).
End meshcore_packets.

(** ** Table [meshcore_adverts] *)

Module meshcore_adverts.
Record row := Row {
  ingest_timestamp : DateTime64;
  mesh_timestamp : DateTime64;
  adv_timestamp : DateTime64;
  public_key : string;
  node_name : string;
  latitude : option Float64;
  longitude : option Float64;
  altitude : option Z;
  has_location : UInt8;
  is_repeater : UInt8;
  is_chat_node : UInt8;
  is_room_server : UInt8;
  has_name : UInt8;
  broker : string;
  topic : string;
  path : string;
  path_len : UInt8;
  origin_pubkey : string;
  origin : string;
  packet_hash : string
}.

(** [PARTITION BY toYYYYMM(ingest_timestamp)] *)
Definition partition_key (r : row) : Z := toYYYYMM (ingest_timestamp r).
End meshcore_adverts.

Abbreviation Advert := meshcore_adverts.row.
Abbreviation Packet := meshcore_packets.row.

(** ** Aggregate functions of the view

    Each aggregate function keeps a state, updated once per row in the
    order the rows are read, and finalised when the group is complete.
    The order of reading is not the order of insertion and the source
    does not fix it: what is proved of an aggregation is proved for
    every order in which its rows can be read. *)

Module Agg.

(** [argMax(arg, val)]: the state holds the [arg] seen with the greatest
    [val] so far.  A row read later replaces it only when its [val] is
    strictly greater.  Of several rows with the same greatest [val] the
    result is therefore the [arg] of the one that happened to be read
    first: it depends on the order of reading and on nothing else. *)
Definition argMax_state (A : Type) : Type := option (A * Z).

Definition argMax_add {A} (st : argMax_state A) (arg : A) (val : Z)
  : argMax_state A :=
  match st with
  | None => Some (arg, val)
  | Some (_, v) => if v <? val then Some (arg, val) else st
  end.

(** On a [Nullable] argument column the function follows the rule of
    every ClickHouse aggregate function ("during aggregation, all NULL
    arguments are skipped"): a row whose argument is NULL leaves the state
    as it was, whatever its [val]. *)
Definition argMax_add_nullable {A} (st : argMax_state A) (arg : option A)
    (val : Z) : argMax_state A :=
  match arg with
  | None => st
  | Some a => argMax_add st a val
  end.

(** The result over non-nullable columns; [dflt] is the column type's
    default, returned only for a state that has read no row. *)
Definition argMax_result {A} (dflt : A) (st : argMax_state A) : A :=
  match st with Some (a, _) => a | None => dflt end.

(** The result over a nullable column: NULL when no non-NULL argument
    was read. *)
Definition argMax_result_nullable {A} (st : argMax_state A) : option A :=
  match st with Some (a, _) => Some a | None => None end.

(** [min(val)], [max(val)] *)
Definition min_add (st : option Z) (val : Z) : option Z :=
  match st with None => Some val | Some v => Some (Z.min v val) end.
Definition max_add (st : option Z) (val : Z) : option Z :=
  match st with None => Some val | Some v => Some (Z.max v val) end.
Definition minmax_result (st : option Z) : Z :=
  match st with Some v => v | None => 0 end.

(** [count()]: a [UInt64] counter, one more per row read. *)
Definition count_add (st : UInt64) : UInt64 := (st + 1) mod 2 ^ 64.

End Agg.

(** ** Materialized view [meshcore_adverts_latest] *)

Module meshcore_adverts_latest.
Import meshcore_adverts.

(** A row of the view: the [NodeState] of one public key. *)
Record NodeState := Row {
  ns_public_key : string;
  ns_node_name : string;
  ns_latitude : option Float64;
  ns_longitude : option Float64;
  ns_altitude : option Z;
  ns_has_location : UInt8;
  ns_is_repeater : UInt8;
  ns_is_chat_node : UInt8;
  ns_is_room_server : UInt8;
  ns_has_name : UInt8;
  ns_broker : string;
  ns_topic : string;
  first_seen : DateTime64;
  last_seen : DateTime64;
  advert_count : UInt64
}.

(** The aggregation state of one group ([GROUP BY public_key]): one
    state per aggregate of the SELECT list, in its order. *)
Record state := State {
  st_node_name : Agg.argMax_state string;
  st_latitude : Agg.argMax_state Float64;
  st_longitude : Agg.argMax_state Float64;
  st_altitude : Agg.argMax_state Z;
  st_has_location : Agg.argMax_state UInt8;
  st_is_repeater : Agg.argMax_state UInt8;
  st_is_chat_node : Agg.argMax_state UInt8;
  st_is_room_server : Agg.argMax_state UInt8;
  st_has_name : Agg.argMax_state UInt8;
  st_broker : Agg.argMax_state string;
  st_topic : Agg.argMax_state string;
  st_first_seen : option Z;
  st_last_seen : option Z;
  st_count : UInt64
}.

Definition empty : state :=
  State None None None None None None None None None None None None None 0.

(** The incremental step: one more row of the group is read. *)
Definition add (st : state) (r : Advert) : state :=
  let t := ingest_timestamp r in
  {| st_node_name := Agg.argMax_add (st_node_name st) (node_name r) t;
     st_latitude := Agg.argMax_add_nullable (st_latitude st) (latitude r) t;
     st_longitude := Agg.argMax_add_nullable (st_longitude st) (longitude r) t;
     st_altitude := Agg.argMax_add_nullable (st_altitude st) (altitude r) t;
     st_has_location := Agg.argMax_add (st_has_location st) (has_location r) t;
     st_is_repeater := Agg.argMax_add (st_is_repeater st) (is_repeater r) t;
     st_is_chat_node := Agg.argMax_add (st_is_chat_node st) (is_chat_node r) t;
     st_is_room_server :=
       Agg.argMax_add (st_is_room_server st) (is_room_server r) t;
     st_has_name := Agg.argMax_add (st_has_name st) (has_name r) t;
     st_broker := Agg.argMax_add (st_broker st) (broker r) t;
     st_topic := Agg.argMax_add (st_topic st) (topic r) t;
     st_first_seen := Agg.min_add (st_first_seen st) t;
     st_last_seen := Agg.max_add (st_last_seen st) t;
     st_count := Agg.count_add (st_count st) |}.

Definition finalize (key : string) (st : state) : NodeState :=
  {| ns_public_key := key;
     ns_node_name := Agg.argMax_result "" (st_node_name st);
     ns_latitude := Agg.argMax_result_nullable (st_latitude st);
     ns_longitude := Agg.argMax_result_nullable (st_longitude st);
     ns_altitude := Agg.argMax_result_nullable (st_altitude st);
     ns_has_location := Agg.argMax_result 0 (st_has_location st);
     ns_is_repeater := Agg.argMax_result 0 (st_is_repeater st);
     ns_is_chat_node := Agg.argMax_result 0 (st_is_chat_node st);
     ns_is_room_server := Agg.argMax_result 0 (st_is_room_server st);
     ns_has_name := Agg.argMax_result 0 (st_has_name st);
     ns_broker := Agg.argMax_result "" (st_broker st);
     ns_topic := Agg.argMax_result "" (st_topic st);
     first_seen := Agg.minmax_result (st_first_seen st);
     last_seen := Agg.minmax_result (st_last_seen st);
     advert_count := st_count st |}.


(** The rows of one group, in the order they are read. *)
Definition group (key : string) (rows : list Advert) : list Advert :=
  filter (λ r, public_key r = key) rows.

(** The aggregation of a group read in the given order. *)
Definition aggregate (rows : list Advert) : state :=
  foldl add empty rows.

(** The row of the SELECT for one public key. *)
Definition select_row (key : string) (read : list Advert) : NodeState :=
  finalize key (aggregate (group key read)).

(** [SELECT public_key, argMax(...), ..., count() as advert_count
    FROM ... GROUP BY public_key] over the rows it is given, in the
    order it reads them: one row per public key that occurs. *)
Definition select (read : list Advert) : list NodeState :=
  (λ key, select_row key read) <$> remove_dups (public_key <$> read).

(** ** What the view stores

    The view is a MATERIALIZED VIEW: its SELECT never runs over the
    table.  It runs on every block of rows inserted into
    [meshcore_adverts] (the rows of one INSERT), over the rows of that
    block only, and its result is written to the view's own storage, a
    ReplacingMergeTree ordered by [public_key].  A merge of that storage
    keeps, of the rows of one public key that it sees together, the one
    with the greatest version, and of several with that version the one
    written last.  Merges run in the background at times the engine
    chooses; until one has seen two rows together a read of the view
    returns both.

    The engine clause names [ingest_timestamp] as the version column.
    The SELECT list has no column of that name, and ClickHouse does not
    accept the statement as it is written.  The version of a row is
    therefore left a parameter, [ver]: what is proved of the view holds
    for every choice of it (no version, [last_seen], any other
    column). *)

Section Storage.
Variable ver : NodeState → Z.

(** One row [r] leaves the storage: a merge saw it together with a row
    [r'] of its public key that has a greater version, or has the same
    version and was written later. *)
Inductive merge_step : list NodeState → list NodeState → Prop :=
| merge_older before r after r' :
    r' ∈ before ++ after →
    ns_public_key r' = ns_public_key r →
    ver r < ver r' →
    merge_step (before ++ r :: after) (before ++ after)
| merge_earlier before r after r' :
    r' ∈ after →
    ns_public_key r' = ns_public_key r →
    ver r = ver r' →
    merge_step (before ++ r :: after) (before ++ after).

(** [stored inserts rows]: after the blocks [inserts] were inserted into
    [meshcore_adverts], in that order, the storage of the view can hold
    [rows], in the order they were written.  The trigger reads the rows
    of a block in some order [read]; merges happen at any time. *)
Inductive stored : list (list Advert) → list NodeState → Prop :=
| stored_nothing : stored [] []
| stored_insert inserts rows blk read :
    stored inserts rows →
    read ≡ₚ blk →
    stored (inserts ++ [blk]) (rows ++ select read)
| stored_merge inserts rows rows' :
    stored inserts rows →
    merge_step rows rows' →
    stored inserts rows'.


End Storage.

(** [SELECT * FROM meshcore_adverts_latest WHERE public_key = key], over
    the rows the storage holds. *)
Definition lookup (key : string) (rows : list NodeState) : list NodeState :=
  filter (λ n, ns_public_key n = key) rows.

End meshcore_adverts_latest.


(** ** Full historical recomputation

    The order in which a full scan replays the adverts of one identity:
    by [ingest_timestamp], rows with the same [ingest_timestamp] by their
    fingerprint ([packet_hash]). *)

Module History.
Import meshcore_adverts.

Definition history_le (a b : Advert) : Prop :=
  ingest_timestamp a < ingest_timestamp b
  ∨ (ingest_timestamp a = ingest_timestamp b
     ∧ String.le (packet_hash a) (packet_hash b)).

#[global] Instance history_le_dec : RelDecision history_le.
Proof. intros a b. unfold history_le. apply _. Defined.

Definition sort_history (records : list Advert) : list Advert :=
  merge_sort history_le records.

(** The NodeStates recomputed from the sorted scan: the SELECT of the
    view over the records read in that order. *)
Definition recompute (records : list Advert)
  : list meshcore_adverts_latest.NodeState :=
  meshcore_adverts_latest.select (sort_history records).

End History.


(** * The neighbour query

    "Get Node Neighbors": the sub-query behind [public_key IN (...)],
    which yields the public keys that share a direct ([path_len = 0])
    advert with the given node, in either direction.  The outer SELECT
    returns the rows that the view holds under those keys. *)

Module Neighbors.
Import meshcore_adverts.

(** [hex]: two upper-case hexadecimal digits per byte. *)
Definition hex_digit (n : N) : Ascii.ascii :=
  match n with
  | 0 => "0" | 1 => "1" | 2 => "2" | 3 => "3" | 4 => "4" | 5 => "5"
  | 6 => "6" | 7 => "7" | 8 => "8" | 9 => "9" | 10 => "A" | 11 => "B"
  | 12 => "C" | 13 => "D" | 14 => "E" | _ => "F"
  end%N%char.

Fixpoint hex (s : string) : string :=
  match s with
  | EmptyString => EmptyString
  | String c rest =>
      let n := Ascii.N_of_ascii c in
      String (hex_digit (n / 16)%N) (String (hex_digit (n mod 16)%N) (hex rest))
  end.




End Neighbors.

(** * The storage engine of the specification

    The schema document declares the tables and the view; the code that
    feeds them (normalisation, deduplication, edge derivation, retention)
    is not part of it.  The definitions of this part follow the
    specification's sections 3 to 7, over the tables and the view above. *)

Module Engine.

Definition NodeIdentity := string.
Definition Fingerprint := string.

(** Modelled from the spec: the record model of section 3 (the three
    record kinds and their payloads); the schema document only declares the
    tables that store them. *)
Inductive Kind := KPacket | KAdvert | KChannelMessage.

Record Geo := MkGeo {
  geo_lat : Float64;
  geo_lon : Float64;
  geo_alt : option Z
}.

Record Capabilities := MkCaps {
  cap_repeater : bool;
  cap_chat_node : bool;
  cap_room_server : bool;
  cap_has_location : bool
}.

Inductive Payload :=
| PacketBody (raw : string)
| AdvertBody (name : string) (coord : option Geo) (caps : Capabilities)
| ChannelMessageBody (channel : string) (encrypted : string) (seq : Z).

Definition kind_of (p : Payload) : Kind :=
  match p with
  | PacketBody _ => KPacket
  | AdvertBody _ _ _ => KAdvert
  | ChannelMessageBody _ _ _ => KChannelMessage
  end.

Record TelemetryRecord := MkRecord {
  ingest_time : DateTime64;
  mesh_time : DateTime64;
  origin : NodeIdentity;
  broker : string;
  region_topic : string;
  hop_path : list NodeIdentity;
  gateway : option NodeIdentity;
  body : Payload
}.

(** Modelled from the spec: the raw inbound record of section 4.1, before
    validation; every required field may be missing. *)
Record RawRecord := MkRaw {
  raw_kind : option Kind;
  raw_origin : option NodeIdentity;
  raw_mesh_time : option DateTime64;
  raw_broker : string;
  raw_region_topic : string;
  raw_hop_path : list NodeIdentity;
  raw_gateway : option NodeIdentity;
  raw_bytes : string;
  raw_name : string;
  raw_coord : option Geo;
  raw_caps : Capabilities;
  raw_channel : string;
  raw_seq : Z
}.

Inductive Error := MalformedRecord.

Definition lat_in_range (x : Float64) : bool :=
  PrimFloat.leb (-90)%float x && PrimFloat.leb x 90%float.
Definition lon_in_range (x : Float64) : bool :=
  PrimFloat.leb (-180)%float x && PrimFloat.leb x 180%float.

Definition coord_in_range (c : option Geo) : bool :=
  match c with
  | None => true
  | Some g => lat_in_range (geo_lat g) && lon_in_range (geo_lon g)
  end.

Definition payload_of (k : Kind) (raw : RawRecord) : Payload :=
  match k with
  | KPacket => PacketBody (raw_bytes raw)
  | KAdvert => AdvertBody (raw_name raw) (raw_coord raw) (raw_caps raw)
  | KChannelMessage =>
      ChannelMessageBody (raw_channel raw) (raw_bytes raw) (raw_seq raw)
  end.

(** Modelled from the spec: [normalize] of section 4.1.  [max_hops] is the
    configured maximum hop count, [now] the store's clock, which becomes
    the record's [ingest_time]. *)
Definition normalize (max_hops : nat) (now : DateTime64) (raw : RawRecord)
  : Error + TelemetryRecord :=
  match raw_kind raw, raw_origin raw, raw_mesh_time raw with
  | Some k, Some o, Some t =>
      if coord_in_range (raw_coord raw)
         && bool_decide (length (raw_hop_path raw) ≤ max_hops)%nat
      then inr {| ingest_time := now;
                  mesh_time := t;
                  origin := o;
                  broker := raw_broker raw;
                  region_topic := raw_region_topic raw;
                  hop_path := raw_hop_path raw;
                  gateway := raw_gateway raw;
                  body := payload_of k raw |}
      else inl MalformedRecord
  | _, _, _ => inl MalformedRecord
  end.

(** Modelled from the spec: a NeighborEdge of section 3, kept under the
    unordered pair of its two identities. *)
Record NeighborEdge := MkEdge {
  connection_count : Z;
  last_connection : DateTime64
}.

Definition edge_key (a b : NodeIdentity) : NodeIdentity * NodeIdentity :=
  if bool_decide (String.le a b) then (a, b) else (b, a).

Definition bit (b : bool) : UInt8 := if b then 1 else 0.

Section WithDigest.

(** The cryptographic digest of section 4.2, over the variant
    discriminant, the origin, the mesh time and the payload. *)
Variable digest : Kind * NodeIdentity * DateTime64 * Payload → Fingerprint.

(** Modelled from the spec: the fingerprint of section 4.2; [ingest_time]
    and [broker] are not part of the digest's input. *)
Definition fingerprint (r : TelemetryRecord) : Fingerprint :=
  digest (kind_of (body r), origin r, mesh_time r, body r).

(** The row an accepted Advert record leaves in [meshcore_adverts]. *)
Definition advert_row (r : TelemetryRecord) : option Advert :=
  match body r with
  | AdvertBody name coord caps =>
      Some {| meshcore_adverts.ingest_timestamp := ingest_time r;
              meshcore_adverts.mesh_timestamp := mesh_time r;
              meshcore_adverts.adv_timestamp := mesh_time r;
              meshcore_adverts.public_key := origin r;
              meshcore_adverts.node_name := name;
              meshcore_adverts.latitude := geo_lat <$> coord;
              meshcore_adverts.longitude := geo_lon <$> coord;
              meshcore_adverts.altitude := coord ≫= geo_alt;
              meshcore_adverts.has_location := bit (cap_has_location caps);
              meshcore_adverts.is_repeater := bit (cap_repeater caps);
              meshcore_adverts.is_chat_node := bit (cap_chat_node caps);
              meshcore_adverts.is_room_server := bit (cap_room_server caps);
              meshcore_adverts.has_name :=
                bit (negb (String.eqb name ""));
              meshcore_adverts.broker := broker r;
              meshcore_adverts.topic := region_topic r;
              meshcore_adverts.path := String.concat "" (hop_path r);
              meshcore_adverts.path_len :=
                Z.of_nat (length (hop_path r)) mod 256;
              meshcore_adverts.origin_pubkey := default "" (gateway r);
              meshcore_adverts.origin := default "" (gateway r);
              meshcore_adverts.packet_hash := fingerprint r |}
  | _ => None
  end.

Record Store := MkStore {
  seen : gset Fingerprint;
  append_log : list TelemetryRecord;
  node_index : gmap NodeIdentity meshcore_adverts_latest.state;
  edge_index : gmap (NodeIdentity * NodeIdentity) NeighborEdge
}.

Definition empty_store : Store := MkStore ∅ [] ∅ ∅.

Inductive IngestResult := Accepted | Duplicate | Rejected (reason : Error).

(** Modelled from the spec: the Materializer of section 4.4.  An Advert is
    merged into the state of its origin by the view's own incremental
    step; other kinds do not feed it. *)
Definition materialize (r : TelemetryRecord)
    (idx : gmap NodeIdentity meshcore_adverts_latest.state)
  : gmap NodeIdentity meshcore_adverts_latest.state :=
  match advert_row r with
  | Some row =>
      <[origin r :=
          meshcore_adverts_latest.add
            (default meshcore_adverts_latest.empty (idx !! origin r)) row]> idx
  | None => idx
  end.

Definition get_node (s : Store) (id : NodeIdentity)
  : option meshcore_adverts_latest.NodeState :=
  meshcore_adverts_latest.finalize id <$> node_index s !! id.

Definition edge_count (edges : gmap (NodeIdentity * NodeIdentity) NeighborEdge)
    (a b : NodeIdentity) : Z :=
  from_option connection_count 0 (edges !! edge_key a b).

(** Modelled from the spec: the Neighbor Graph Deriver of section 4.5.
    Only an Advert with an empty hop path whose context names the hearing
    gateway touches the index. *)
Definition derive_edge (r : TelemetryRecord)
    (edges : gmap (NodeIdentity * NodeIdentity) NeighborEdge)
  : gmap (NodeIdentity * NodeIdentity) NeighborEdge :=
  match body r, hop_path r, gateway r with
  | AdvertBody _ _ _, [], Some h =>
      <[edge_key (origin r) h :=
          {| connection_count := edge_count edges (origin r) h + 1;
             last_connection := ingest_time r |}]> edges
  | _, _, _ => edges
  end.

(** Modelled from the spec: the pipeline of section 2 behind the ingest
    boundary of section 6: Deduplicator ([check_and_register] on the
    fingerprint), Append Log, Materializer and Neighbor Graph Deriver. *)
Definition ingest_record (r : TelemetryRecord) (s : Store)
  : IngestResult * Store :=
  if decide (fingerprint r ∈ seen s) then (Duplicate, s)
  else (Accepted,
        {| seen := {[fingerprint r]} ∪ seen s;
           append_log := append_log s ++ [r];
           node_index := materialize r (node_index s);
           edge_index := derive_edge r (edge_index s) |}).

Definition ingest (max_hops : nat) (now : DateTime64) (raw : RawRecord)
    (s : Store) : IngestResult * Store :=
  match normalize max_hops now raw with
  | inl e => (Rejected e, s)
  | inr r => ingest_record r s
  end.

(** Records delivered one after the other; the results in delivery order. *)
Fixpoint ingest_all (rs : list TelemetryRecord) (s : Store)
  : list IngestResult * Store :=
  match rs with
  | [] => ([], s)
  | r :: rs' =>
      let '(res, s1) := ingest_record r s in
      let '(ress, s2) := ingest_all rs' s1 in
      (res :: ress, s2)
  end.

End WithDigest.

End Engine.

(** * Stored order of a MergeTree table

    A MergeTree part holds its rows sorted by the table's [ORDER BY] key;
    once the parts of a partition are merged ([OPTIMIZE TABLE ... FINAL])
    the partition is one such part. *)

Module MergeTree.

Definition str_lt (a b : string) : Prop := String.le a b ∧ a ≠ b.

(** [meshcore_packets]: [ORDER BY (ingest_timestamp, broker, topic)] *)
Definition packets_order (a b : Packet) : Prop :=
  meshcore_packets.ingest_timestamp a < meshcore_packets.ingest_timestamp b
  ∨ (meshcore_packets.ingest_timestamp a = meshcore_packets.ingest_timestamp b
     ∧ (str_lt (meshcore_packets.broker a) (meshcore_packets.broker b)
        ∨ (meshcore_packets.broker a = meshcore_packets.broker b
           ∧ String.le (meshcore_packets.topic a) (meshcore_packets.topic b)))).

(** [meshcore_adverts]: [ORDER BY (public_key, ingest_timestamp)] *)
Definition adverts_order (a b : Advert) : Prop :=
  str_lt (meshcore_adverts.public_key a) (meshcore_adverts.public_key b)
  ∨ (meshcore_adverts.public_key a = meshcore_adverts.public_key b
     ∧ meshcore_adverts.ingest_timestamp a
       ≤ meshcore_adverts.ingest_timestamp b).

#[global] Instance packets_order_dec : RelDecision packets_order.
Proof. intros a b. unfold packets_order, str_lt. apply _. Defined.

#[global] Instance adverts_order_dec : RelDecision adverts_order.
Proof. intros a b. unfold adverts_order, str_lt. apply _. Defined.

(** The rows of partition [b] in the order they are stored. *)
Definition stored_packets (tbl : list Packet) (b : Z) : list Packet :=
  merge_sort packets_order
    (filter (λ r, meshcore_packets.partition_key r = b) tbl).

Definition stored_adverts (tbl : list Advert) (b : Z) : list Advert :=
  merge_sort adverts_order
    (filter (λ r, meshcore_adverts.partition_key r = b) tbl).

(** Ingest-time order. *)
Definition packets_ingest_le (a b : Packet) : Prop :=
  meshcore_packets.ingest_timestamp a ≤ meshcore_packets.ingest_timestamp b.
Definition adverts_ingest_le (a b : Advert) : Prop :=
  meshcore_adverts.ingest_timestamp a ≤ meshcore_adverts.ingest_timestamp b.

#[global] Instance packets_ingest_le_dec : RelDecision packets_ingest_le.
Proof. intros a b. unfold packets_ingest_le. apply _. Defined.

#[global] Instance adverts_ingest_le_dec : RelDecision adverts_ingest_le.
Proof. intros a b. unfold adverts_ingest_le. apply _. Defined.

(** Modelled from the spec: [scan] of section 4.3 over the packets log.  The
    stored partitions the table has are merged by ingest time, and the
    rows in the time range that satisfy the predicate are kept. *)
Definition scan_packets (pred : Packet → bool) (range : Z * Z)
    (tbl : list Packet) : list Packet :=
  filter (λ r, range.1 ≤ meshcore_packets.ingest_timestamp r ≤ range.2
               ∧ pred r = true)
    (foldr (λ b acc, list_merge packets_ingest_le (stored_packets tbl b) acc)
       [] (remove_dups (meshcore_packets.partition_key <$> tbl))).

End MergeTree.

(** * Inserts

    An INSERT into [meshcore_adverts] appends its block to the table and
    runs the trigger of the view on it. *)

Module Database.




End Database.

(** * Retention

    "Retention: 90 days (configurable via TTL)": a TTL on
    [ingest_timestamp], as in
    [MODIFY TTL ingest_timestamp + INTERVAL 180 DAY].  A row has expired
    once [ingest_timestamp + ttl] is not in the future, and a merge that
    applies the TTL deletes the expired rows of a part one by one.  The
    TTL is the table's: the storage of the view has none, and a row
    deleted from the table is not taken back from the view. *)

Module Retention.
Import meshcore_adverts.

(** 90 days, in milliseconds. *)
Definition default_ttl : Z := 90 * ms_per_day.

Definition expired (now ttl : Z) (r : Advert) : Prop :=
  ingest_timestamp r + ttl ≤ now.

#[global] Instance expired_dec now ttl r : Decision (expired now ttl r).
Proof. unfold expired. apply _. Defined.

(** The table once the TTL has been applied, at [now], to all its
    parts. *)
Definition apply_ttl (now ttl : Z) (tbl : list Advert) : list Advert :=
  filter (λ r, ¬ expired now ttl r) tbl.

(** The rows of partition [b]. *)
Definition partition (tbl : list Advert) (b : Z) : list Advert :=
  filter (λ r, partition_key r = b) tbl.

(** Modelled from the spec: [scan_history] of section 6 over the adverts. *)
Definition scan_history (range : Z * Z) (pred : Advert → bool)
    (tbl : list Advert) : list Advert :=
  filter (λ r, range.1 ≤ ingest_timestamp r ≤ range.2 ∧ pred r = true) tbl.

End Retention.

(** * [POST /api/wardrive/put-sample]

    [src/app/api/wardrive/put-sample/route.ts].  The handler is a function
    of what [req.json()] completes with and of what [putSample] completes
    with on the object it is given; it completes with a response or with
    a throw of its own, and the model also returns the arguments of the
    [putSample] calls it made. *)

Module Route.

(** A value as [JSON.parse] builds it.  An object lists its own
    properties, each key once, in insertion order. *)
Inductive Json :=
| JNull
| JBool (b : bool)
| JNumber (n : Float64)
| JString (s : string)
| JArray (items : list Json)
| JObject (props : list (string * Json)).

(** Induction over a value and, through its lists, over the values it
    contains. *)
Section JsonInduction.
Variable P : Json → Prop.
Hypothesis Hnull : P JNull.
Hypothesis Hbool : ∀ b, P (JBool b).
Hypothesis Hnumber : ∀ n, P (JNumber n).
Hypothesis Hstring : ∀ s, P (JString s).
Hypothesis Harray : ∀ items, Forall P items → P (JArray items).
Hypothesis Hobject : ∀ props, Forall (λ p, P p.2) props → P (JObject props).

Fixpoint Json_nested_ind (v : Json) : P v :=
  match v with
  | JNull => Hnull
  | JBool b => Hbool b
  | JNumber n => Hnumber n
  | JString s => Hstring s
  | JArray items =>
      Harray items
        ((fix go (l : list Json) : Forall P l :=
            match l with
            | [] => @List.Forall_nil _ P
            | x :: rest =>
                @List.Forall_cons _ P x rest (Json_nested_ind x) (go rest)
            end) items)
  | JObject props =>
      Hobject props
        ((fix go (l : list (string * Json)) : Forall (λ p, P p.2) l :=
            match l with
            | [] => @List.Forall_nil _ (λ p, P p.2)
            | p :: rest =>
                @List.Forall_cons _ (λ p, P p.2) p rest
                  (match p as q return P q.2 with
                   | (_, w) => Json_nested_ind w
                   end)
                  (go rest)
            end) props)
  end.
End JsonInduction.

(** A thrown value.

    - [ErrorInstance]: an instance of [Error] (or of a subclass) with its
      [name] and a [message] that is a string, as the [Error] constructor
      stores it.
    - [ErrorOddMessage]: an instance of [Error] whose [message] is not a
      string (the property was assigned after construction, or a subclass
      defines it).  The handler does one thing with such a message: it
      evaluates [message.includes('ClickHouse')].  The value carries how
      that evaluation completes: it throws ([inl]: a [TypeError] when
      [message] is [undefined] or [null] or has no callable [includes],
      anything when [includes] is a function that throws), or it returns
      a value, of which only the truthiness is used ([inr]).
    - [NotAnError]: any value that is not an instance of [Error]. *)
Inductive Thrown :=
| ErrorInstance (name message : string)
| ErrorOddMessage (name : string) (message_includes : Thrown + bool)
| NotAnError (v : Json).

Inductive Completion (A : Type) :=
| Normal (a : A)
| Throw (t : Thrown).
Arguments Normal {A} a.
Arguments Throw {A} t.

Definition bind {A B} (c : Completion A) (k : A → Completion B)
  : Completion B :=
  match c with Normal a => k a | Throw t => Throw t end.

(** The [TypeError]s of the engine (V8's wording). *)
Definition TypeError (message : string) : Thrown :=
  ErrorInstance "TypeError" message.

(** The thrown value is an [Error] whose message is a string that
    contains the substring ClickHouse. *)
Definition mentions_ClickHouse (t : Thrown) : Prop :=
  ∃ name message pre post,
    t = ErrorInstance name message
    ∧ message = pre +:+ "ClickHouse" +:+ post.

Definition conversion_error : Thrown :=
  TypeError "Cannot convert object to primitive value".

(** An [Error] whose [message] is [undefined]: reading [includes] from it
    throws. *)
Definition error_without_message (name : string) : Thrown :=
  ErrorOddMessage name
    (inl (TypeError "Cannot read properties of undefined (reading 'includes')")).

(** [String.prototype.includes]: [needle] occurs in [hay]. *)
Fixpoint includes (needle hay : string) : bool :=
  String.prefix needle hay
  || match hay with
     | EmptyString => false
     | String _ rest => includes needle rest
     end.

(** Own property lookup and assignment. *)
Fixpoint own (props : list (string * Json)) (k : string) : option Json :=
  match props with
  | [] => None
  | (k', v) :: rest => if String.eqb k' k then Some v else own rest k
  end.

Fixpoint set_own (props : list (string * Json)) (k : string) (v : Json)
  : list (string * Json) :=
  match props with
  | [] => [(k, v)]
  | (k', v') :: rest =>
      if String.eqb k' k then (k, v) :: rest else (k', v') :: set_own rest k v
  end.

(** [Array.prototype.join(sep)]: the elements from left to right, [null]
    as the empty string, every other element through [ToString]. *)
Definition join_with (ToString : Json → Completion string) (sep : string)
  : list Json → Completion string :=
  fix go (items : list Json) : Completion string :=
    match items with
    | [] => Normal ""
    | x :: rest =>
        bind (match x with JNull => Normal "" | _ => ToString x end)
          (λ s, match rest with
                | [] => Normal s
                | _ => bind (go rest) (λ t, Normal (s +:+ sep +:+ t))
                end)
    end.

Section WithNumber.

(** [Number::toString] of ECMAScript. *)
Variable Number_toString : Float64 → string.

(** [ToString] on a parsed value.  An array is joined with a comma; a
    plain object prints as [[object Object]] unless it has an own
    [toString] property, which after [JSON.parse] is never callable:
    the conversion then finds no primitive and throws. *)
Fixpoint ToString (v : Json) : Completion string :=
  match v with
  | JNull => Normal "null"
  | JBool b => Normal (if b then "true" else "false")
  | JNumber n => Normal (Number_toString n)
  | JString s => Normal s
  | JArray items => join_with ToString "," items
  | JObject props =>
      match own props "toString" with
      | Some _ => Throw conversion_error
      | None => Normal "[object Object]"
      end
  end.

(** [body.path.join('')] *)
Definition path_join (body : Json) : Completion string :=
  match body with
  | JNull =>
      Throw (TypeError "Cannot read properties of null (reading 'path')")
  | JObject props =>
      match own props "path" with
      | None =>
          Throw (TypeError
                   "Cannot read properties of undefined (reading 'join')")
      | Some JNull =>
          Throw (TypeError "Cannot read properties of null (reading 'join')")
      | Some (JArray items) => join_with ToString "" items
      | Some _ => Throw (TypeError "body.path.join is not a function")
      end
  | _ =>
      Throw (TypeError "Cannot read properties of undefined (reading 'join')")
  end.

(** [sample.path = ...]: [sample] is [body] itself. *)
Definition assign_path (body : Json) (s : string) : Json :=
  match body with
  | JObject props => JObject (set_own props "path" (JString s))
  | other => other
  end.

Record Response := MkResponse {
  status : Z;
  json : list (string * string)
}.

Definition ok_response : Response :=
  MkResponse 200 [("result", "ok")].
Definition database_error : Response :=
  MkResponse 503 [("error", "Database temporarily unavailable");
                  ("code", "DATABASE_ERROR")].
Definition internal_error : Response :=
  MkResponse 500 [("error", "Error while inserting");
                  ("code", "INTERNAL_ERROR")].

(** [putSample] of [@/lib/clickhouse/actions]: what the insert of the
    given object completes with. *)
Variable putSample : Json → Completion unit.

(** The [try] block: how it completes, and the [putSample] calls made. *)
Definition try_block (req_json : Completion Json)
  : Completion unit * list Json :=
  match req_json with
  | Throw t => (Throw t, [])
  | Normal body =>
      match path_join body with
      | Throw t => (Throw t, [])
      | Normal s =>
          let sample := assign_path body s in
          (putSample sample, [sample])
      end
  end.

(** The [catch] block: [error instanceof Error &&
    error.message.includes('ClickHouse')] decides between the two error
    responses, and a throw of that test leaves the block.
    ([console.error] is taken to return.) *)
Definition catch_block (error : Thrown) : Completion Response :=
  match error with
  | ErrorInstance _ message =>
      Normal (if includes "ClickHouse" message then database_error
              else internal_error)
  | ErrorOddMessage _ (inl t) => Throw t
  | ErrorOddMessage _ (inr truthy) =>
      Normal (if truthy then database_error else internal_error)
  | NotAnError _ => Normal internal_error
  end.

Definition POST (req_json : Completion Json)
  : Completion Response * list Json :=
  match try_block req_json with
  | (Normal _, calls) => (Normal ok_response, calls)
  | (Throw error, calls) => (catch_block error, calls)
  end.

(** The insert succeeds: [req.json()] returned a body, the join of its
    [path] returned, and [putSample] completed on the body with the
    joined [path]. *)
Definition insert_succeeds (req_json : Completion Json) : Prop :=
  ∃ body s,
    req_json = Normal body
    ∧ path_join body = Normal s
    ∧ putSample (assign_path body s) = Normal tt.

(** Processing threw [t]: [req.json()] did, or the join did, or
    [putSample] did. *)
Definition processing_throws (req_json : Completion Json) (t : Thrown)
  : Prop :=
  req_json = Throw t
  ∨ (∃ body, req_json = Normal body ∧ path_join body = Throw t)
  ∨ (∃ body s,
       req_json = Normal body
       ∧ path_join body = Normal s
       ∧ putSample (assign_path body s) = Throw t).

End WithNumber.

End Route.

(** * Table [meshcore_public_channel_messages] *)

Module meshcore_public_channel_messages.

(** An element of [origin_path_info]. *)
Record path_info := PathInfo {
  pi_origin : string;
  pi_origin_pubkey : string;
  pi_path : string;
  pi_broker : string;
  pi_topic : string
}.

Record row := Row {
  ingest_timestamp : DateTime64;
  mesh_timestamp : DateTime64;
  channel_hash : string;
  mac : string;
  encrypted_message : string;
  message_count : Z;
  message_id : string;
  origin_path_info : list path_info
}.

End meshcore_public_channel_messages.

(** * View [unified_latest_nodeinfo]

    The columns of the view, which the bounding-box query reads. *)

Module unified_latest_nodeinfo.

Record row := Row {
  node_id : string;
  name : string;
  short_name : string;
  latitude : option Float64;
  longitude : option Float64;
  altitude : option Z;
  first_seen : DateTime64;
  last_seen : DateTime64;
  type : string
}.

End unified_latest_nodeinfo.

(** * The documented queries *)

Module Queries.

(** ** Three-valued conditions *)

(** A condition over nullable columns is true, false or NULL
    ([None]); [WHERE] keeps the rows on which it is true. *)
Definition and3 (a b : option bool) : option bool :=
  match a, b with
  | Some false, _ | _, Some false => Some false
  | Some true, Some true => Some true
  | _, _ => None
  end.

(** [x BETWEEN lo AND hi], that is [lo <= x AND x <= hi]. *)
Definition between (x : option Float64) (lo hi : Float64) : option bool :=
  match x with
  | None => None
  | Some v => Some (PrimFloat.leb lo v && PrimFloat.leb v hi)
  end.

(** [x IS NOT NULL] *)
Definition is_not_null {A} (x : option A) : option bool :=
  Some (match x with Some _ => true | None => false end).

Definition where_keeps (c : option bool) : bool :=
  match c with Some true => true | _ => false end.

(** ** Get Nodes in Bounding Box *)

Record box_row := BoxRow {
  box_node_id : string;
  box_name : string;
  box_latitude : option Float64;
  box_longitude : option Float64;
  box_last_seen : DateTime64;
  box_type : string
}.

(** The WHERE clause, with the bounds of the box as parameters (the
    document's are 47.0, 48.0, -122.5 and -121.5). *)
Definition box_where (lat_lo lat_hi lon_lo lon_hi : Float64)
    (u : unified_latest_nodeinfo.row) : option bool :=
  and3
    (and3
       (and3 (between (unified_latest_nodeinfo.latitude u) lat_lo lat_hi)
          (between (unified_latest_nodeinfo.longitude u) lon_lo lon_hi))
       (is_not_null (unified_latest_nodeinfo.latitude u)))
    (is_not_null (unified_latest_nodeinfo.longitude u)).

(** [ORDER BY last_seen DESC] *)
Definition last_seen_desc (a b : unified_latest_nodeinfo.row) : Prop :=
  unified_latest_nodeinfo.last_seen b ≤ unified_latest_nodeinfo.last_seen a.

#[global] Instance last_seen_desc_dec : RelDecision last_seen_desc.
Proof. intros a b. unfold last_seen_desc. apply _. Defined.

Definition box_select (u : unified_latest_nodeinfo.row) : box_row :=
  {| box_node_id := unified_latest_nodeinfo.node_id u;
     box_name := unified_latest_nodeinfo.name u;
     box_latitude := unified_latest_nodeinfo.latitude u;
     box_longitude := unified_latest_nodeinfo.longitude u;
     box_last_seen := unified_latest_nodeinfo.last_seen u;
     box_type := unified_latest_nodeinfo.type u |}.

Definition nodes_in_box (lat_lo lat_hi lon_lo lon_hi : Float64)
    (view : list unified_latest_nodeinfo.row) : list box_row :=
  box_select
    <$> merge_sort last_seen_desc
          (filter (λ u, where_keeps (box_where lat_lo lat_hi lon_lo lon_hi u)
                        = true) view).

(** ** Query Best Practices: the current state of a node, read from the
    table: [SELECT * FROM meshcore_adverts WHERE public_key = key
    ORDER BY ingest_timestamp DESC LIMIT 1] *)

Definition ingest_desc (a b : Advert) : Prop :=
  meshcore_adverts.ingest_timestamp b ≤ meshcore_adverts.ingest_timestamp a.

#[global] Instance ingest_desc_dec : RelDecision ingest_desc.
Proof. intros a b. unfold ingest_desc. apply _. Defined.

Definition latest_advert_scan (key : string) (tbl : list Advert)
  : list Advert :=
  take 1
    (merge_sort ingest_desc
       (filter (λ r, meshcore_adverts.public_key r = key) tbl)).

(** ** Recent Chat Messages *)

Record chat_row := ChatRow {
  chat_ingest_timestamp : DateTime64;
  chat_mesh_timestamp : DateTime64;
  chat_channel_hash : string;
  chat_message_hex : string;
  chat_message_count : Z;
  chat_origin_path_info : list meshcore_public_channel_messages.path_info
}.

Definition chat_desc (a b : meshcore_public_channel_messages.row) : Prop :=
  meshcore_public_channel_messages.ingest_timestamp b
  ≤ meshcore_public_channel_messages.ingest_timestamp a.

#[global] Instance chat_desc_dec : RelDecision chat_desc.
Proof. intros a b. unfold chat_desc. apply _. Defined.

Definition chat_select (m : meshcore_public_channel_messages.row) : chat_row :=
  {| chat_ingest_timestamp :=
       meshcore_public_channel_messages.ingest_timestamp m;
     chat_mesh_timestamp := meshcore_public_channel_messages.mesh_timestamp m;
     chat_channel_hash := meshcore_public_channel_messages.channel_hash m;
     chat_message_hex :=
       Neighbors.hex (meshcore_public_channel_messages.encrypted_message m);
     chat_message_count := meshcore_public_channel_messages.message_count m;
     chat_origin_path_info :=
       meshcore_public_channel_messages.origin_path_info m |}.

(** The rows the query keeps, before the SELECT list is applied:
    [WHERE channel_hash = channel ORDER BY ingest_timestamp DESC LIMIT 50]. *)
Definition recent_chat_kept (channel : string)
    (tbl : list meshcore_public_channel_messages.row)
  : list meshcore_public_channel_messages.row :=
  take 50
    (merge_sort chat_desc
       (filter (λ m, meshcore_public_channel_messages.channel_hash m = channel)
          tbl)).

Definition recent_chat_messages (channel : string)
    (tbl : list meshcore_public_channel_messages.row) : list chat_row :=
  chat_select <$> recent_chat_kept channel tbl.

(** ** Repeater Prefix Statistics *)

Record prefix_row := PrefixRow {
  prefix : string;
  node_count : UInt64;
  node_names : list string;
  most_recent : DateTime64
}.





(** [ORDER BY node_count DESC, prefix ASC] *)
Definition prefix_order (a b : prefix_row) : Prop :=
  node_count b < node_count a
  ∨ (node_count a = node_count b ∧ String.le (prefix a) (prefix b)).

#[global] Instance prefix_order_dec : RelDecision prefix_order.
Proof. intros a b. unfold prefix_order. apply _. Defined.


(** ** Querying by Region

    [topic LIKE 'msh/US/SEA/%'] and [topic LIKE 'msh/US/%']: the pattern
    is a literal followed by [%], so the topic matches when it starts
    with the literal. *)
Definition seattle_nodes (view : list meshcore_adverts_latest.NodeState)
  : list meshcore_adverts_latest.NodeState :=
  filter (λ n, meshcore_adverts_latest.ns_broker n = "mqtt.meshdev.wapnet.net"
               ∧ String.prefix "msh/US/SEA/"
                   (meshcore_adverts_latest.ns_topic n) = true) view.

Definition us_nodes (view : list meshcore_adverts_latest.NodeState)
  : list meshcore_adverts_latest.NodeState :=
  filter (λ n, String.prefix "msh/US/"
                 (meshcore_adverts_latest.ns_topic n) = true) view.

(** ** Network Path Analysis *)

Record path_row := PathRow {
  pa_path_len : UInt8;
  packet_count : UInt64;
  unique_sources : UInt64
}.

(** [WHERE ingest_timestamp >= now() - INTERVAL 1 DAY] *)
Definition last_day (now : DateTime64) (tbl : list Packet) : list Packet :=
  filter (λ r, now - ms_per_day ≤ meshcore_packets.ingest_timestamp r) tbl.

Definition path_group (len : UInt8) (window : list Packet) : path_row :=
  let g := filter (λ r, meshcore_packets.path_len r = len) window in
  {| pa_path_len := len;
     packet_count := Z.of_nat (length g) mod 2 ^ 64;
     unique_sources :=
       Z.of_nat
         (length
            (remove_dups
               ((λ r, Neighbors.hex (meshcore_packets.origin_pubkey r)) <$> g)))
       mod 2 ^ 64 |}.

(** [ORDER BY path_len ASC] *)
Definition path_len_asc (a b : path_row) : Prop := pa_path_len a ≤ pa_path_len b.

#[global] Instance path_len_asc_dec : RelDecision path_len_asc.
Proof. intros a b. unfold path_len_asc. apply _. Defined.

Definition network_path_analysis (now : DateTime64) (tbl : list Packet)
  : list path_row :=
  let window := last_day now tbl in
  merge_sort path_len_asc
    ((λ len, path_group len window)
       <$> remove_dups (meshcore_packets.path_len <$> window)).

End Queries.

(** * More of the view: the nullable columns *)

Module LatestNullable.
Import meshcore_adverts.

(** What [argMax(col, ingest_timestamp)] over a nullable column of the
    rows [rows] may return: NULL when the column is NULL in every row,
    and otherwise the value of a row that carries one and is not older
    than any other row that carries one. *)
Definition latest_non_null {A} (col : Advert → option A)
    (rows : list Advert) (result : option A) : Prop :=
  match result with
  | None => ∀ r, r ∈ rows → col r = None
  | Some v =>
      ∃ r, r ∈ rows ∧ col r = Some v
           ∧ ∀ r', r' ∈ rows → is_Some (col r') →
                   ingest_timestamp r' ≤ ingest_timestamp r
  end.

End LatestNullable.

(** * More of the route: values that cannot be joined *)

Module RouteEdge.
Import Route.

(** A parsed value whose conversion to a string throws: an object with an
    own [toString] property, or an array that holds such a value (an
    array prints by joining its elements).  An object nested in an object
    is never converted. *)
Fixpoint unprintable (v : Json) : bool :=
  match v with
  | JObject props =>
      match own props "toString" with Some _ => true | None => false end
  | JArray items => existsb unprintable items
  | _ => false
  end.

End RouteEdge.

(** * The calendar arithmetic of [toYYYYMM]

    The intermediate quantities of [civil_year_month], named: the year
    of the era and the day of the (March-based) year of a day of the
    era, and the month of a day of the year, with January and February
    carried into the next year as months 101 and 102. *)

Module Calendar.

Definition yoe_of (doe : Z) : Z :=
  (doe - doe / 1460 + doe / 36524 - doe / 146096) / 365.

Definition doy_of (doe : Z) : Z :=
  doe - (365 * yoe_of doe + yoe_of doe / 4 - yoe_of doe / 100).

Definition month_code (doy : Z) : Z :=
  let mp := (5 * doy + 2) / 153 in if mp <? 10 then mp + 3 else mp + 91.

Definition code (era doe : Z) : Z :=
  40000 * era + 100 * yoe_of doe + month_code (doy_of doe).

(** [toYYYYMM] of a day number. *)
Definition year_month (days : Z) : Z :=
  let '(y, m) := civil_year_month days in y * 100 + m.

End Calendar.

(** ** Sample rows

    An advert row with the columns the view reads set from the arguments
    and every other column left at its default. *)

Module Sample.

Definition advert (key name : string) (t : DateTime64)
    (lat lon : option Float64) (loc : UInt8) (gateway hash : string) : Advert :=
  {| meshcore_adverts.ingest_timestamp := t;
     meshcore_adverts.mesh_timestamp := t;
     meshcore_adverts.adv_timestamp := t;
     meshcore_adverts.public_key := key;
     meshcore_adverts.node_name := name;
     meshcore_adverts.latitude := lat;
     meshcore_adverts.longitude := lon;
     meshcore_adverts.altitude := None;
     meshcore_adverts.has_location := loc;
     meshcore_adverts.is_repeater := 0;
     meshcore_adverts.is_chat_node := 1;
     meshcore_adverts.is_room_server := 0;
     meshcore_adverts.has_name := 1;
     meshcore_adverts.broker := "mqtt.meshdev.wapnet.net";
     meshcore_adverts.topic := "msh/US/SEA/#";
     meshcore_adverts.path := "";
     meshcore_adverts.path_len := 0;
     meshcore_adverts.origin_pubkey := gateway;
     meshcore_adverts.origin := "gw";
     meshcore_adverts.packet_hash := hash |}.

(** Two adverts of N1 with the same ingest time and different names. *)
Definition tie_a : Advert :=
  advert "N1" "Alice" 1000 (Some 47.6%float) (Some (-122.3)%float) 1 "G1" "f2".
Definition tie_b : Advert :=
  advert "N1" "Bob" 1000 (Some 47.6%float) (Some (-122.3)%float) 1 "G1" "f1".

(** The scenario of the specification: N1 at t1 = 1000, then at t2 = 2000. *)
Definition alice_1 : Advert :=
  advert "N1" "Alice" 1000 (Some 47.6%float) (Some (-122.3)%float) 1 "G1" "f1".
Definition alice_2 : Advert :=
  advert "N1" "Alice" 2000 (Some 47.7%float) (Some (-122.1)%float) 1 "G1" "f2".

(** N1 announces again at t2 = 2000, now without a location. *)
Definition alice_no_location : Advert :=
  advert "N1" "Alice" 2000 None None 0 "G1" "f3".

(** Retention at 2025-11-15 with the 90-day ttl (cut-off 2025-08-17):
    N2 announced on 2025-08-05, N1 on 2025-08-25, N3 on 2025-07-20. *)
Definition nov_15 : DateTime64 := 1763164800000.
Definition aug_05 : Advert :=
  advert "N2" "Bob" 1754352000000 None None 0 "G1" "f1".
Definition aug_25 : Advert :=
  advert "N1" "Alice" 1756080000000 None None 0 "G1" "f2".
Definition jul_20 : Advert :=
  advert "N3" "Carol" 1752969600000 None None 0 "G1" "f3".

(** A stand-in for the digest, used where a theorem is evaluated: the
    fields it is given, written one after the other. *)
Definition digest
    (x : Engine.Kind * Engine.NodeIdentity * DateTime64 * Engine.Payload)
  : Engine.Fingerprint :=
  let '(k, o, t, p) := x in
  (match k with
   | Engine.KPacket => "P"
   | Engine.KAdvert => "A"
   | Engine.KChannelMessage => "C"
   end)
  +:+ o +:+ "@" +:+ pretty t +:+ ":"
  +:+ (match p with
       | Engine.PacketBody raw => raw
       | Engine.AdvertBody name _ _ => name
       | Engine.ChannelMessageBody ch enc _ => ch +:+ "/" +:+ enc
       end).

(** A zero-hop advert of N1 heard by gateway G1, as two brokers deliver it. *)
Definition heard (brk : string) (now : DateTime64) (hops : list string)
  : Engine.TelemetryRecord :=
  {| Engine.ingest_time := now;
     Engine.mesh_time := 900;
     Engine.origin := "N1";
     Engine.broker := brk;
     Engine.region_topic := "msh/US/SEA/#";
     Engine.hop_path := hops;
     Engine.gateway := Some "G1";
     Engine.body :=
       Engine.AdvertBody "Alice"
         (Some (Engine.MkGeo 47.6%float (-122.3)%float None))
         (Engine.MkCaps false true false true) |}.

(** A raw advert whose latitude is 95 degrees. *)
Definition raw_lat_95 : Engine.RawRecord :=
  {| Engine.raw_kind := Some Engine.KAdvert;
     Engine.raw_origin := Some "N1";
     Engine.raw_mesh_time := Some 900;
     Engine.raw_broker := "broker-a";
     Engine.raw_region_topic := "msh/US/SEA/#";
     Engine.raw_hop_path := [];
     Engine.raw_gateway := Some "G1";
     Engine.raw_bytes := "";
     Engine.raw_name := "Alice";
     Engine.raw_coord := Some (Engine.MkGeo 95%float (-122.3)%float None);
     Engine.raw_caps := Engine.MkCaps false true false true;
     Engine.raw_channel := "";
     Engine.raw_seq := 0 |}.

(** Request bodies of the put-sample route, an insert that succeeds, and a
    stand-in for the printing of numbers. *)
Definition body_with_path : Route.Json :=
  Route.JObject
    [("lat", Route.JNumber 47.6%float);
     ("path", Route.JArray [Route.JString "a1"; Route.JString "b2"])].
Definition body_without_path : Route.Json :=
  Route.JObject [("lat", Route.JNumber 47.6%float)].
Definition insert_ok (sample : Route.Json) : Route.Completion unit :=
  Route.Normal tt.
Definition number_text (n : Float64) : string := "47.6".

(** Packets of 2025-12-22, by ingest time, path length and gateway. *)
Definition dec_22 : DateTime64 := 1766361600000.
Definition packet (t : DateTime64) (hops : UInt8) (gateway : string)
  : Packet :=
  {| meshcore_packets.ingest_timestamp := t;
     meshcore_packets.mesh_timestamp := t;
     meshcore_packets.broker := "mqtt.meshdev.wapnet.net";
     meshcore_packets.topic := "msh/US/SEA/#";
     meshcore_packets.packet := "";
     meshcore_packets.payload := "";
     meshcore_packets.path_len := hops;
     meshcore_packets.path := "";
     meshcore_packets.route_type := 1;
     meshcore_packets.payload_type := 4;
     meshcore_packets.payload_version := 0;
     meshcore_packets.header := "";
     meshcore_packets.origin_pubkey := gateway |}.
Definition packets : list Packet :=
  [packet dec_22 0 "G1"; packet (dec_22 + 60000) 2 "G2";
   packet (dec_22 + 120000) 2 "G1"; packet (dec_22 - 2 * ms_per_day) 5 "G1"].


(** A [path] that holds an object with its own [toString]. *)
Definition body_with_object_in_path : list (string * Route.Json) :=
  [("path",
    Route.JArray
      [Route.JString "a1"; Route.JObject [("toString", Route.JNull)]])].

End Sample.

(** * Theorems *)

(** ** Evaluations of the definitions *)

Example toYYYYMM_2025_12_22 : toYYYYMM 1766361600000 = 202512.
Proof. reflexivity. Qed.

Example toYYYYMM_leap_day : toYYYYMM 951782400000 = 200002.
Proof. reflexivity. Qed.

Example toYYYYMM_before_epoch : toYYYYMM (-1) = 196912.
Proof. reflexivity. Qed.

Example argMax_keeps_first_of_tie :
  Agg.argMax_add (Agg.argMax_add None "a" 5) "b" 5 = Some ("a", 5).
Proof. reflexivity. Qed.

Example argMax_skips_null :
  Agg.argMax_add_nullable (Agg.argMax_add_nullable None (Some 1) 5) None 9
  = Some (1, 5).
Proof. reflexivity. Qed.

Example hex_AB : Neighbors.hex "AB" = "4142".
Proof. reflexivity. Qed.

Example includes_ClickHouse :
  Route.includes "ClickHouse" "connect to ClickHouse failed" = true
  ∧ Route.includes "ClickHouse" "clickhouse is down" = false.
Proof. split; reflexivity. Qed.

Example join_mixed :
  Route.join_with (Route.ToString Sample.number_text) ""
    [Route.JString "a1"; Route.JNull; Route.JBool true;
     Route.JArray [Route.JString "x"; Route.JString "y"]]
  = Route.Normal "a1truex,y".
Proof. reflexivity. Qed.

Example join_object_with_toString :
  Route.join_with (Route.ToString Sample.number_text) ""
    [Route.JObject [("toString", Route.JNull)]]
  = Route.Throw Route.conversion_error.
Proof. reflexivity. Qed.

Example POST_ClickHouse_down :
  Route.POST Sample.number_text
    (λ _, Route.Throw (Route.ErrorInstance "Error" "ClickHouse timeout"))
    (Route.Normal Sample.body_with_path)
  = (Route.Normal Route.database_error,
     [Route.JObject
        [("lat", Route.JNumber 47.6%float); ("path", Route.JString "a1b2")]]).
Proof. reflexivity. Qed.

(** ** The aggregates of the view *)

Section AggFacts.
Context {A : Type}.
Implicit Types (st : Agg.argMax_state A) (a : A) (k : Z).

Local Ltac ltb_cases :=
  repeat match goal with
         | |- context [?x <? ?y] => destruct (Z.ltb_spec x y)
         | H : context [?x <? ?y] |- _ => destruct (Z.ltb_spec x y)
         end.

Lemma argMax_add_comm st a1 k1 a2 k2 :
  k1 ≠ k2 →
  Agg.argMax_add (Agg.argMax_add st a1 k1) a2 k2
  = Agg.argMax_add (Agg.argMax_add st a2 k2) a1 k1.
Proof.
  intros Hne. destruct st as [[a v]|]; simpl; ltb_cases; simpl; ltb_cases;
    try reflexivity; lia.
Qed.

Lemma argMax_add_nullable_comm st (o1 o2 : option A) k1 k2 :
  k1 ≠ k2 →
  Agg.argMax_add_nullable (Agg.argMax_add_nullable st o1 k1) o2 k2
  = Agg.argMax_add_nullable (Agg.argMax_add_nullable st o2 k2) o1 k1.
Proof.
  intros Hne. destruct o1, o2; simpl; auto using argMax_add_comm.
Qed.



End AggFacts.

Lemma min_add_comm st k1 k2 :
  Agg.min_add (Agg.min_add st k1) k2 = Agg.min_add (Agg.min_add st k2) k1.
Proof. destruct st; simpl; f_equal; lia. Qed.

Lemma max_add_comm st k1 k2 :
  Agg.max_add (Agg.max_add st k1) k2 = Agg.max_add (Agg.max_add st k2) k1.
Proof. destruct st; simpl; f_equal; lia. Qed.



(** ** The view: the order of reading *)

Section LatestFacts.
Import meshcore_adverts meshcore_adverts_latest.

(** Two rows with different ingest timestamps can be read in either order. *)
Lemma add_comm st (a b : Advert) :
  ingest_timestamp a ≠ ingest_timestamp b →
  add (add st a) b = add (add st b) a.
Proof.
  intros Hne. unfold add; simpl.
  f_equal;
    auto using (@argMax_add_comm), (@argMax_add_nullable_comm),
      min_add_comm, max_add_comm.
Qed.

Lemma foldl_add_perm (l l' : list Advert) :
  l ≡ₚ l' →
  NoDup (ingest_timestamp <$> l) →
  ∀ st, foldl add st l = foldl add st l'.
Proof.
  induction 1 as [|x l l' Hp IH|x y l|l l' l'' Hp1 IH1 Hp2 IH2];
    intros Hnd st; simpl.
  - reflexivity.
  - apply IH. by apply NoDup_cons in Hnd as [_ ?].
  - rewrite add_comm; [reflexivity|].
    rewrite !fmap_cons in Hnd.
    apply NoDup_cons in Hnd as [Hin _]. set_solver.
  - rewrite IH1 by done. apply IH2. by rewrite <- Hp1.
Qed.

Lemma group_all key (l : list Advert) :
  Forall (λ r, public_key r = key) l → group key l = l.
Proof.
  unfold group. induction 1 as [|r l Hr _ IH]; [done|].
  rewrite filter_cons_True by done. by rewrite IH.
Qed.

End LatestFacts.

Section MergeEquivalence.
Import meshcore_adverts meshcore_adverts_latest.

Lemma remove_dups_one_key key (l : list Advert) :
  Forall (λ r, public_key r = key) l → l ≠ [] →
  remove_dups (public_key <$> l) = [key].
Proof.
  induction 1 as [|r l Hr Hall IH]; [done|]. intros _.
  rewrite fmap_cons, Hr. simpl. case_decide as Hin.
  - apply IH. intros ->. by apply elem_of_nil in Hin.
  - destruct l as [|r' l]; [done|]. exfalso. apply Hin.
    rewrite fmap_cons. apply Forall_cons in Hall as [-> _]. left.
Qed.

(** The SELECT over the rows of one public key: one row, or none. *)
Lemma select_single_identity key (l : list Advert) :
  Forall (λ r, public_key r = key) l →
  select l = match l with [] => [] | _ => [finalize key (aggregate l)] end.
Proof.
  intros Hall. destruct l as [|r l]; [done|].
  unfold select, select_row.
  rewrite (remove_dups_one_key key) by done. simpl.
  by rewrite (group_all key _ Hall).
Qed.

(** With pairwise different ingest timestamps the order of reading does
    not matter. *)
Lemma select_distinct_times key (records read : list Advert) :
  Forall (λ r, public_key r = key) records →
  NoDup (ingest_timestamp <$> records) →
  read ≡ₚ records →
  select read = select records.
Proof.
  intros Hall Hnd Hperm.
  rewrite (select_single_identity key read),
    (select_single_identity key records); [|done|].
  - assert (Hagg : aggregate read = aggregate records).
    { unfold aggregate. apply foldl_add_perm; [done|]. by rewrite Hperm. }
    rewrite Hagg. destruct read, records; try reflexivity.
    + by apply Permutation_nil_cons in Hperm.
    + symmetry in Hperm. by apply Permutation_nil_cons in Hperm.
  - eapply Permutation_Forall; [|exact Hall]. by symmetry.
Qed.

(** C1, as amended.  For the adverts of one identity with pairwise
    different ingest timestamps that arrive in one insert block, the
    NodeState the view computes is the same in whatever order the rows
    of the block arrive and are read, and it is the NodeState recomputed
    from the rows sorted by ingest timestamp (ties by fingerprint) and
    folded from left to right. *)
Theorem merge_equivalence_distinct_times
    (key : string) (records arrival : list Advert) :
  Forall (λ r, public_key r = key) records →
  NoDup (ingest_timestamp <$> records) →
  arrival ≡ₚ records →
  select arrival = History.recompute records.
Proof.
  intros Hall Hnd Hperm. unfold History.recompute, History.sort_history.
  assert (Hs : merge_sort History.history_le records ≡ₚ records)
    by apply merge_sort_Permutation.
  rewrite (select_distinct_times key records arrival) by done.
  symmetry. by apply (select_distinct_times key).
Qed.

Lemma merge_equivalence_distinct_times_witness :
  select [Sample.alice_2; Sample.alice_1]
  = History.recompute [Sample.alice_1; Sample.alice_2].
Proof.
  apply (merge_equivalence_distinct_times "N1").
  - repeat constructor.
  - apply (bool_decide_unpack _). vm_compute. reflexivity.
  - apply perm_swap.
Defined.

(** C1, as stated, fails when two adverts carry the same ingest
    timestamp: the NodeState is the one of the advert read first, so the
    two orders of reading give two NodeStates, and read in the order
    [tie_a], [tie_b] the view does not give the NodeState of the sorted
    recomputation, which takes the advert with the smaller
    fingerprint. *)
Lemma merge_equivalence_fails_on_tie :
  select [Sample.tie_a; Sample.tie_b] ≠ select [Sample.tie_b; Sample.tie_a]
  ∧ select [Sample.tie_a; Sample.tie_b]
    ≠ History.recompute [Sample.tie_a; Sample.tie_b].
Proof.
  split; intros H; apply (f_equal (fmap ns_node_name)) in H;
    vm_compute in H; discriminate H.
Qed.

End MergeEquivalence.

(** ** The view: what a NodeState holds *)

Section LatestSummary.
Import meshcore_adverts meshcore_adverts_latest.

Lemma aggregate_snoc (l : list Advert) (r : Advert) :
  aggregate (l ++ [r]) = add (aggregate l) r.
Proof. unfold aggregate. by rewrite foldl_app. Qed.

Lemma aggregate_count (l : list Advert) :
  st_count (aggregate l) = Z.of_nat (length l) mod 2 ^ 64.
Proof.
  induction l as [|r l IH] using rev_ind; [done|].
  rewrite aggregate_snoc, length_app; simpl.
  unfold Agg.count_add. rewrite IH, Zplus_mod_idemp_l.
  f_equal. lia.
Qed.

(** The state of a non-empty group: the bounds are reached, and the
    non-nullable [argMax] columns all come from one row [w] of greatest
    ingest timestamp. *)
Lemma aggregate_summary (l : list Advert) :
  l ≠ [] →
  ∃ (lo w : Advert),
    lo ∈ l ∧ w ∈ l
    ∧ (∀ r, r ∈ l →
         ingest_timestamp lo ≤ ingest_timestamp r ≤ ingest_timestamp w)
    ∧ st_first_seen (aggregate l) = Some (ingest_timestamp lo)
    ∧ st_last_seen (aggregate l) = Some (ingest_timestamp w)
    ∧ st_node_name (aggregate l) = Some (node_name w, ingest_timestamp w)
    ∧ st_has_location (aggregate l)
      = Some (has_location w, ingest_timestamp w)
    ∧ st_is_repeater (aggregate l) = Some (is_repeater w, ingest_timestamp w)
    ∧ st_is_chat_node (aggregate l)
      = Some (is_chat_node w, ingest_timestamp w)
    ∧ st_is_room_server (aggregate l)
      = Some (is_room_server w, ingest_timestamp w)
    ∧ st_has_name (aggregate l) = Some (has_name w, ingest_timestamp w)
    ∧ st_broker (aggregate l) = Some (broker w, ingest_timestamp w)
    ∧ st_topic (aggregate l) = Some (topic w, ingest_timestamp w).
Proof.
  induction l as [|x l IH] using rev_ind; [done|]. intros _.
  rewrite aggregate_snoc.
  assert (Hx : x ∈ l ++ [x]) by (apply elem_of_app; right; left).
  destruct (decide (l = [])) as [->|Hne].
  { exists x, x. simpl. split_and!; try done.
    intros r ->%list_elem_of_singleton; lia. }
  destruct (IH Hne) as
    (lo & w & Hlo & Hw & Hb & Hmin & Hmax & Hn & H1 & H2 & H3 & H4 & H5
       & H6 & H7).
  assert (Hlow : ingest_timestamp lo ≤ ingest_timestamp w)
    by (destruct (Hb lo Hlo); lia).
  assert (Hlo' : lo ∈ l ++ [x]) by (apply elem_of_app; by left).
  assert (Hw' : w ∈ l ++ [x]) by (apply elem_of_app; by left).
  pose (lo' := if decide (ingest_timestamp x < ingest_timestamp lo)
               then x else lo).
  pose (w' := if decide (ingest_timestamp w < ingest_timestamp x)
              then x else w).
  exists lo', w'. unfold add; simpl.
  rewrite Hmin, Hmax, Hn, H1, H2, H3, H4, H5, H6, H7; simpl.
  subst lo' w'.
  repeat case_decide;
    repeat match goal with
           | |- context [?a <? ?b] => destruct (Z.ltb_spec a b); try lia
           end;
    (split_and!;
     [done | done
     | intros r [Hr| ->%list_elem_of_singleton]%elem_of_app;
       [destruct (Hb r Hr); lia | lia]
     | f_equal; lia | f_equal; lia | done..]).
Qed.

End LatestSummary.

(** ** Lists *)

Lemma filter_nil_iff {A} (P : A → Prop) `{∀ x, Decision (P x)} (l : list A) :
  filter P l = [] ↔ ∀ x, x ∈ l → ¬ P x.
Proof.
  induction l as [|x l IH].
  - split; [|done]. intros _ y Hy. by apply elem_of_nil in Hy.
  - destruct (decide (P x)).
    + rewrite filter_cons_True by done. split; [done|].
      intros Hall. exfalso. apply (Hall x); [left|done].
    + rewrite filter_cons_False, IH by done. split.
      * intros Hall y [->|Hy]%elem_of_cons; auto.
      * intros Hall y Hy. apply Hall. by right.
Qed.


Lemma elem_of_concat {A} (ls : list (list A)) (x : A) :
  x ∈ concat ls ↔ ∃ l, l ∈ ls ∧ x ∈ l.
Proof.
  induction ls as [|l ls IH]; simpl.
  - split; [by intros ?%elem_of_nil|]. by intros (l & ?%elem_of_nil & _).
  - rewrite elem_of_app, IH. split.
    + intros [Hx|(l' & Hl' & Hx)].
      * exists l. split; [left|done].
      * exists l'. split; [by right|done].
    + intros (l' & [->|Hl']%elem_of_cons & Hx); [by left|].
      right. by exists l'.
Qed.

(** ** The view: the rows of one insert block *)

Section BlockRows.
Import meshcore_adverts meshcore_adverts_latest LatestNullable.



Lemma argMax_nullable_fold {A} (col : Advert → option A) (l : list Advert) :
  match foldl (λ st r, Agg.argMax_add_nullable st (col r) (ingest_timestamp r))
          None l with
  | None => ∀ r, r ∈ l → col r = None
  | Some (v, k) =>
      ∃ r, r ∈ l ∧ col r = Some v ∧ ingest_timestamp r = k
           ∧ ∀ r', r' ∈ l → is_Some (col r') → ingest_timestamp r' ≤ k
  end.
Proof.
  set (step := λ (st : Agg.argMax_state A) (r : Advert),
                  Agg.argMax_add_nullable st (col r) (ingest_timestamp r)).
  induction l as [|x l IH] using rev_ind; simpl.
  { intros r Hr. by apply elem_of_nil in Hr. }
  rewrite foldl_app; simpl. unfold step at 1.
  destruct (foldl step None l) as [[v k]|].
  - destruct IH as (r & Hr & Hv & Hk & Hmax).
    destruct (col x) as [vx|] eqn:Hx; simpl.
    + destruct (Z.ltb_spec k (ingest_timestamp x)).
      * exists x. split_and!; [apply elem_of_app; right; left|done|done|].
        intros r' [Hr'| ->%list_elem_of_singleton]%elem_of_app Hs; [|lia].
        specialize (Hmax r' Hr' Hs). lia.
      * exists r. split_and!; [apply elem_of_app; by left|done|done|].
        intros r' [Hr'| ->%list_elem_of_singleton]%elem_of_app Hs; [|lia].
        by apply Hmax.
    + exists r. split_and!; [apply elem_of_app; by left|done|done|].
      intros r' [Hr'| ->%list_elem_of_singleton]%elem_of_app Hs.
      * by apply Hmax.
      * rewrite Hx in Hs. by destruct Hs.
  - destruct (col x) as [vx|] eqn:Hx; simpl.
    + exists x. split_and!; [apply elem_of_app; right; left|done|done|].
      intros r' [Hr'| ->%list_elem_of_singleton]%elem_of_app Hs; [|lia].
      rewrite (IH r' Hr') in Hs. by destruct Hs.
    + intros r [Hr| ->%list_elem_of_singleton]%elem_of_app; [by apply IH|done].
Qed.

Lemma latest_non_null_fold {A} (col : Advert → option A) (l : list Advert) :
  latest_non_null col l
    (Agg.argMax_result_nullable
       (foldl (λ st r, Agg.argMax_add_nullable st (col r) (ingest_timestamp r))
          None l)).
Proof.
  pose proof (argMax_nullable_fold col l) as H.
  set (step := λ (st : Agg.argMax_state A) (r : Advert),
                  Agg.argMax_add_nullable st (col r) (ingest_timestamp r)) in *.
  destruct (foldl step None l) as [[v k]|]; simpl; [|done].
  destruct H as (r & Hr & Hv & <- & Hmax). by exists r.
Qed.

Lemma nullable_states (l : list Advert) :
  st_latitude (aggregate l)
  = foldl (λ st r, Agg.argMax_add_nullable st (latitude r) (ingest_timestamp r))
      None l
  ∧ st_longitude (aggregate l)
    = foldl (λ st r,
               Agg.argMax_add_nullable st (longitude r) (ingest_timestamp r))
        None l
  ∧ st_altitude (aggregate l)
    = foldl (λ st r,
               Agg.argMax_add_nullable st (altitude r) (ingest_timestamp r))
        None l.
Proof.
  induction l as [|x l (IH1 & IH2 & IH3)] using rev_ind; [done|].
  rewrite aggregate_snoc, !foldl_app; simpl.
  by rewrite IH1, IH2, IH3.
Qed.


Lemma elem_of_select (read : list Advert) (n : NodeState) :
  n ∈ select read ↔ ∃ r, r ∈ read ∧ n = select_row (public_key r) read.
Proof.
  unfold select. rewrite list_elem_of_fmap. split.
  - intros (key & -> & Hkey).
    apply elem_of_remove_dups, list_elem_of_fmap in Hkey as (r & -> & Hr).
    by exists r.
  - intros (r & Hr & ->). exists (public_key r). split; [done|].
    apply elem_of_remove_dups, list_elem_of_fmap. by exists r.
Qed.

Lemma group_Permutation key (read blk : list Advert) :
  read ≡ₚ blk → group key read ≡ₚ group key blk.
Proof. intros Hp. unfold group. by rewrite Hp. Qed.

(** The row the SELECT gives for a key that occurs among the rows read:
    what it holds, in terms of the rows of that key. *)
Lemma select_row_summary (key : string) (read : list Advert) :
  group key read ≠ [] →
  let n := select_row key read in
  ns_public_key n = key
  ∧ advert_count n = Z.of_nat (length (group key read)) mod 2 ^ 64
  ∧ (∀ r, r ∈ group key read →
          first_seen n ≤ ingest_timestamp r ≤ last_seen n)
  ∧ (∃ r, r ∈ group key read ∧ ingest_timestamp r = first_seen n)
  ∧ (∃ w, w ∈ group key read
          ∧ ingest_timestamp w = last_seen n
          ∧ ns_node_name n = node_name w
          ∧ ns_has_location n = has_location w
          ∧ ns_is_repeater n = is_repeater w
          ∧ ns_is_chat_node n = is_chat_node w
          ∧ ns_is_room_server n = is_room_server w
          ∧ ns_has_name n = has_name w
          ∧ ns_broker n = broker w
          ∧ ns_topic n = topic w).
Proof.
  intros Hne n. subst n. unfold select_row.
  destruct (aggregate_summary _ Hne)
    as (lo & w & Hlo & Hw & Hb & Hmin & Hmax & Hn & H1 & H2 & H3 & H4 & H5
          & H6 & H7).
  unfold finalize; simpl.
  rewrite Hmin, Hmax, Hn, H1, H2, H3, H4, H5, H6, H7; simpl.
  split_and!; [done|apply aggregate_count|done|by exists lo|].
  exists w. by split_and!.
Qed.

Lemma select_row_nullable (key : string) (read : list Advert) :
  let n := select_row key read in
  latest_non_null latitude (group key read) (ns_latitude n)
  ∧ latest_non_null longitude (group key read) (ns_longitude n)
  ∧ latest_non_null altitude (group key read) (ns_altitude n).
Proof.
  intros n. subst n. unfold select_row.
  destruct (nullable_states (group key read)) as (H1 & H2 & H3).
  unfold finalize; simpl. rewrite H1, H2, H3.
  split_and!; apply latest_non_null_fold.
Qed.

Lemma latest_non_null_Permutation {A} (col : Advert → option A)
    (l l' : list Advert) (result : option A) :
  l ≡ₚ l' → latest_non_null col l result → latest_non_null col l' result.
Proof.
  intros Hp. unfold latest_non_null. destruct result as [v|].
  - intros (r & Hr & Hv & Hmax). exists r. rewrite <- Hp. split_and!; [done..|].
    intros r' Hr'. apply Hmax. by rewrite Hp.
  - intros Hall r Hr. apply Hall. by rewrite Hp.
Qed.

(** X2.  Two adverts of one key in one insert block, the second one
    later and carrying coordinates: in whatever order the two rows are
    read, the row the view writes has the second one's name and
    coordinates, the first one's time as [first_seen], the second one's
    as [last_seen], and counts two. *)
Theorem select_two_adverts (key : string) (a b : Advert) (read : list Advert) :
  public_key a = key → public_key b = key →
  ingest_timestamp a < ingest_timestamp b →
  is_Some (latitude b) → is_Some (longitude b) →
  read ≡ₚ [a; b] →
  ∃ n, select read = [n]
       ∧ ns_latitude n = latitude b
       ∧ ns_longitude n = longitude b
       ∧ ns_node_name n = node_name b
       ∧ first_seen n = ingest_timestamp a
       ∧ last_seen n = ingest_timestamp b
       ∧ advert_count n = 2.
Proof.
  intros Ha Hb Hlt [lat Hlat] [lon Hlon] Hperm.
  assert (Hall : Forall (λ r, public_key r = key) [a; b])
    by (by repeat constructor).
  rewrite (select_distinct_times key [a; b] read); [|done| |done].
  - rewrite (select_single_identity key) by done.
    eexists. split; [reflexivity|].
    apply Z.ltb_lt in Hlt as Hltb.
    unfold aggregate, finalize, add; simpl. rewrite Hlat, Hlon.
    destruct (latitude a), (longitude a); simpl; rewrite ?Hltb; simpl;
      split_and!; try done; lia.
  - rewrite !fmap_cons. apply NoDup_cons. split; [|apply NoDup_singleton].
    intros Heq%list_elem_of_singleton. lia.
Qed.

Lemma select_two_adverts_witness :
  ∃ n, select [Sample.alice_2; Sample.alice_1] = [n]
       ∧ ns_latitude n = Some 47.7%float
       ∧ ns_longitude n = Some (-122.1)%float
       ∧ ns_node_name n = "Alice"
       ∧ first_seen n = 1000
       ∧ last_seen n = 2000
       ∧ advert_count n = 2.
Proof.
  apply (select_two_adverts "N1" Sample.alice_1 Sample.alice_2).
  - reflexivity.
  - reflexivity.
  - reflexivity.
  - by eexists.
  - by eexists.
  - apply perm_swap.
Defined.

End BlockRows.

(** ** The view: what its storage holds *)

Section ViewStorage.
Import meshcore_adverts meshcore_adverts_latest LatestNullable.
Variable ver : NodeState → Z.

Lemma merge_step_elem (rows rows' : list NodeState) :
  merge_step ver rows rows' → ∀ n, n ∈ rows' → n ∈ rows.
Proof.
  intros [before r after r' _ _ _|before r after r' _ _ _] n;
    rewrite !elem_of_app, elem_of_cons; tauto.
Qed.

(** A merge takes a row away only in favour of another row of its key. *)
Lemma merge_step_keeps_key (rows rows' : list NodeState) :
  merge_step ver rows rows' →
  ∀ n, n ∈ rows → ∃ n', n' ∈ rows' ∧ ns_public_key n' = ns_public_key n.
Proof.
  intros [before r after r' Hr' Hkey _|before r after r' Hr' Hkey _] n;
    rewrite elem_of_app, elem_of_cons.
  - intros [Hn|[->|Hn]].
    + exists n. rewrite elem_of_app. tauto.
    + by exists r'.
    + exists n. rewrite elem_of_app. tauto.
  - intros [Hn|[->|Hn]].
    + exists n. rewrite elem_of_app. tauto.
    + exists r'. rewrite elem_of_app. tauto.
    + exists n. rewrite elem_of_app. tauto.
Qed.

Lemma stored_elem (inserts : list (list Advert)) (rows : list NodeState) :
  stored ver inserts rows →
  ∀ n, n ∈ rows → ∃ blk read, blk ∈ inserts ∧ read ≡ₚ blk ∧ n ∈ select read.
Proof.
  induction 1 as [|inserts rows blk read _ IH Hread
                  |inserts rows rows' _ IH Hstep]; intros n Hn.
  - by apply elem_of_nil in Hn.
  - apply elem_of_app in Hn as [Hn|Hn].
    + destruct (IH n Hn) as (blk' & read' & Hin & Hp & Hsel).
      exists blk', read'. rewrite elem_of_app. tauto.
    + exists blk, read. rewrite elem_of_app, list_elem_of_singleton. tauto.
  - apply IH. by apply (merge_step_elem rows rows').
Qed.





Lemma lookup_nonempty (key : string) (rows : list NodeState) :
  lookup key rows ≠ [] ↔ ∃ n, n ∈ rows ∧ ns_public_key n = key.
Proof.
  unfold lookup. split.
  - intros Hne.
    destruct (filter (λ n, ns_public_key n = key) rows) as [|n l] eqn:Hf;
      [done|].
    assert (Hn : n ∈ filter (λ n, ns_public_key n = key) rows)
      by (rewrite Hf; left).
    apply list_elem_of_filter in Hn as [? ?]. by exists n.
  - intros (n & Hn & Hk) Hnil.
    by apply (proj1 (filter_nil_iff (λ n, ns_public_key n = key) rows)
                Hnil n).
Qed.

(** A merge never removes the last row of a key. *)
Lemma stored_has_key
    (inserts : list (list Advert)) (rows : list NodeState) (key : string) :
  stored ver inserts rows →
  (lookup key rows ≠ []
   ↔ ∃ blk r, blk ∈ inserts ∧ r ∈ blk ∧ public_key r = key).
Proof.
  intros Hst. rewrite lookup_nonempty. split.
  - intros (n & Hn & <-).
    destruct (stored_elem inserts rows Hst n Hn) as (blk & read & Hin & Hp & Hsel).
    apply elem_of_select in Hsel as (r & Hr & ->).
    exists blk, r. split_and!; [done| |done]. by rewrite <- Hp.
  - revert key. induction Hst as [|inserts rows blk read _ IH Hread
                                  |inserts rows rows' _ IH Hstep];
      intros key (blk0 & r & Hin & Hr & Hkey).
    + by apply elem_of_nil in Hin.
    + apply elem_of_app in Hin as [Hin| ->%list_elem_of_singleton].
      * destruct (IH key) as (n & Hn & Hk); [by exists blk0, r|].
        exists n. rewrite elem_of_app. tauto.
      * exists (select_row key read). split; [|done].
        apply elem_of_app. right. apply elem_of_select.
        exists r. split; [by rewrite Hread|by rewrite Hkey].
    + destruct (IH key) as (n & Hn & Hk); [by exists blk0, r|].
      destruct (merge_step_keeps_key rows rows' Hstep n Hn) as (n' & Hn' & Hk').
      exists n'. split; [done|congruence].
Qed.

(** X10.  Whatever the merges did, the view returns a row under a
    public key exactly when an advert of that key was inserted, and
    every row it returns under the key is a row computed from one of the
    inserts that hold an advert of the key: a merge never removes the
    last row of a key, and nothing but an insert adds one. *)
Theorem view_has_key_iff
    (inserts : list (list Advert)) (rows : list NodeState) (key : string) :
  stored ver inserts rows →
  (lookup key rows ≠ []
   ↔ ∃ blk r, blk ∈ inserts ∧ r ∈ blk ∧ public_key r = key)
  ∧ ∀ n, n ∈ lookup key rows →
         ∃ blk read r,
           blk ∈ inserts ∧ read ≡ₚ blk ∧ r ∈ blk ∧ public_key r = key
           ∧ n = select_row key read.
Proof.
  intros Hst. split; [by apply stored_has_key|].
  intros n [Hkey Hn]%list_elem_of_filter.
  destruct (stored_elem inserts rows Hst n Hn) as (blk & read & Hin & Hp & Hsel).
  apply elem_of_select in Hsel as (r & Hr & ->).
  exists blk, read, r. simpl in Hkey. subst key.
  split_and!; [done|done| |done|done]. by rewrite <- Hp.
Qed.

(** X1.  Every row the view holds summarises the adverts of its public
    key in one single insert block, and nothing else: its
    [advert_count] is the number of those adverts (as a [UInt64]),
    [first_seen] and [last_seen] are the least and the greatest ingest
    timestamp among them, and its non-nullable columns are those of one
    of them with the greatest ingest timestamp. *)
Theorem view_row_summarises_one_insert
    (inserts : list (list Advert)) (rows : list NodeState) (n : NodeState) :
  stored ver inserts rows → n ∈ rows →
  ∃ blk,
    blk ∈ inserts
    ∧ group (ns_public_key n) blk ≠ []
    ∧ advert_count n
      = Z.of_nat (length (group (ns_public_key n) blk)) mod 2 ^ 64
    ∧ (∀ r, r ∈ group (ns_public_key n) blk →
            first_seen n ≤ ingest_timestamp r ≤ last_seen n)
    ∧ (∃ r, r ∈ group (ns_public_key n) blk
            ∧ ingest_timestamp r = first_seen n)
    ∧ (∃ w, w ∈ group (ns_public_key n) blk
            ∧ ingest_timestamp w = last_seen n
            ∧ ns_node_name n = node_name w
            ∧ ns_has_location n = has_location w
            ∧ ns_is_repeater n = is_repeater w
            ∧ ns_is_chat_node n = is_chat_node w
            ∧ ns_is_room_server n = is_room_server w
            ∧ ns_has_name n = has_name w
            ∧ ns_broker n = broker w
            ∧ ns_topic n = topic w).
Proof.
  intros Hst Hn.
  destruct (stored_elem inserts rows Hst n Hn) as (blk & read & Hin & Hp & Hsel).
  apply elem_of_select in Hsel as (r0 & Hr0 & ->).
  set (key := public_key r0).
  assert (Hne : group key read ≠ []).
  { intros Hnil.
    by apply (proj1 (filter_nil_iff (λ r, public_key r = key) read) Hnil r0). }
  destruct (select_row_summary key read Hne)
    as (Hkey & Hcount & Hbounds & (lo & Hlo & Hmin) & (w & Hw & Hmax)).
  pose proof (group_Permutation key read blk Hp) as Hg.
  exists blk. rewrite Hkey. split_and!.
  - done.
  - intros Hnil. rewrite Hnil in Hg. by apply Permutation_nil_r in Hg.
  - by rewrite <- Hg.
  - intros r Hr. apply Hbounds. by rewrite Hg.
  - exists lo. by rewrite <- Hg.
  - exists w. by rewrite <- Hg.
Qed.

(** X13.  Each nullable column of a row of the view ([latitude],
    [longitude], [altitude]) is NULL exactly when the column is NULL in
    every advert of the key in the insert block the row was computed
    from; otherwise it is the value of an advert of that block that
    carries one and is not older than any other that carries one.  It
    need not come from the latest advert of the block, and two columns
    need not come from the same advert. *)
Theorem view_row_nullable_columns
    (inserts : list (list Advert)) (rows : list NodeState) (n : NodeState) :
  stored ver inserts rows → n ∈ rows →
  ∃ blk,
    blk ∈ inserts
    ∧ latest_non_null latitude (group (ns_public_key n) blk) (ns_latitude n)
    ∧ latest_non_null longitude (group (ns_public_key n) blk) (ns_longitude n)
    ∧ latest_non_null altitude (group (ns_public_key n) blk) (ns_altitude n).
Proof.
  intros Hst Hn.
  destruct (stored_elem inserts rows Hst n Hn) as (blk & read & Hin & Hp & Hsel).
  apply elem_of_select in Hsel as (r0 & Hr0 & ->).
  destruct (select_row_nullable (public_key r0) read) as (H1 & H2 & H3).
  pose proof (group_Permutation (public_key r0) read blk Hp) as Hg.
  exists blk. simpl.
  split_and!; [done|..]; by eapply latest_non_null_Permutation.
Qed.

End ViewStorage.

Lemma view_has_key_iff_witness :
  meshcore_adverts_latest.lookup "N1"
    (meshcore_adverts_latest.select [Sample.alice_1]
     ++ meshcore_adverts_latest.select [Sample.alice_2]) ≠ [].
Proof.
  assert (Hst : meshcore_adverts_latest.stored
                  meshcore_adverts_latest.last_seen
                  [[Sample.alice_1]; [Sample.alice_2]]
                  (meshcore_adverts_latest.select [Sample.alice_1]
                   ++ meshcore_adverts_latest.select [Sample.alice_2])).
  { exact (meshcore_adverts_latest.stored_insert _ _ _ _ _
             (meshcore_adverts_latest.stored_insert _ [] [] _ _
                (meshcore_adverts_latest.stored_nothing _)
                (reflexivity [Sample.alice_1]))
             (reflexivity [Sample.alice_2])). }
  apply (proj1 (view_has_key_iff meshcore_adverts_latest.last_seen
                  _ _ "N1" Hst)).
  exists [Sample.alice_1], Sample.alice_1. split_and!; [left|left|done].
Defined.

Lemma view_row_summarises_one_insert_witness :
  ∃ blk,
    blk ∈ [[Sample.alice_1]; [Sample.alice_2]]
    ∧ meshcore_adverts_latest.advert_count
        (meshcore_adverts_latest.select_row "N1" [Sample.alice_2])
      = Z.of_nat (length (meshcore_adverts_latest.group "N1" blk)) mod 2 ^ 64.
Proof.
  destruct (view_row_summarises_one_insert meshcore_adverts_latest.last_seen
              [[Sample.alice_1]; [Sample.alice_2]]
              (meshcore_adverts_latest.select [Sample.alice_1]
               ++ meshcore_adverts_latest.select [Sample.alice_2])
              (meshcore_adverts_latest.select_row "N1" [Sample.alice_2]))
    as (blk & Hin & _ & Hcount & _).
  - exact (meshcore_adverts_latest.stored_insert _ _ _ _ _
             (meshcore_adverts_latest.stored_insert _ [] [] _ _
                (meshcore_adverts_latest.stored_nothing _)
                (reflexivity [Sample.alice_1]))
             (reflexivity [Sample.alice_2])).
  - right. left.
  - by exists blk.
Defined.

Lemma view_row_nullable_columns_witness :
  ∃ blk,
    blk ∈ [[Sample.alice_1; Sample.alice_no_location]]
    ∧ LatestNullable.latest_non_null meshcore_adverts.latitude
        (meshcore_adverts_latest.group "N1" blk)
        (Some 47.6%float).
Proof.
  destruct (view_row_nullable_columns meshcore_adverts_latest.last_seen
              [[Sample.alice_1; Sample.alice_no_location]]
              (meshcore_adverts_latest.select
                 [Sample.alice_1; Sample.alice_no_location])
              (meshcore_adverts_latest.select_row "N1"
                 [Sample.alice_1; Sample.alice_no_location]))
    as (blk & Hin & Hlat & _).
  - exact (meshcore_adverts_latest.stored_insert _ [] [] _ _
             (meshcore_adverts_latest.stored_nothing _)
             (reflexivity [Sample.alice_1; Sample.alice_no_location])).
  - left.
  - by exists blk.
Defined.

(** ** The view after two inserts *)

Section TwoInserts.
Import meshcore_adverts meshcore_adverts_latest.

(** C5, at the failing input: the scenario of the specification, N1
    announcing at 1000 and again at 2000, as two inserts.  Whatever
    column orders the rows and whatever the merges did, every row the
    view holds for N1 counts one advert and has [first_seen] equal to
    [last_seen]: none has [first_seen] 1000, [last_seen] 2000 and
    [advert_count] 2.  With [last_seen] as the version the merged view
    holds the row of the second insert alone, [first_seen] 2000 and
    [advert_count] 1.  The view's own SELECT, run over both adverts,
    gives [first_seen] 1000, [last_seen] 2000 and [advert_count] 2. *)
Theorem latest_holds_the_last_insert_only :
  (∀ ver rows n,
     stored ver [[Sample.alice_1]; [Sample.alice_2]] rows → n ∈ rows →
     advert_count n = 1 ∧ first_seen n = last_seen n)
  ∧ stored last_seen [[Sample.alice_1]; [Sample.alice_2]]
      (select [Sample.alice_2])
  ∧ (∃ n, select [Sample.alice_2] = [n]
          ∧ ns_latitude n = Some 47.7%float
          ∧ ns_longitude n = Some (-122.1)%float
          ∧ first_seen n = 2000
          ∧ last_seen n = 2000
          ∧ advert_count n = 1)
  ∧ (∃ n, select [Sample.alice_1; Sample.alice_2] = [n]
          ∧ ns_latitude n = Some 47.7%float
          ∧ ns_longitude n = Some (-122.1)%float
          ∧ first_seen n = 1000
          ∧ last_seen n = 2000
          ∧ advert_count n = 2).
Proof.
  split_and!.
  - intros ver rows n Hst Hn.
    destruct (stored_elem ver _ rows Hst n Hn) as (blk & read & Hin & Hp & Hsel).
    apply elem_of_cons in Hin as [->|Hin].
    + apply Permutation_singleton_r in Hp as ->.
      apply list_elem_of_singleton in Hsel as ->. by split.
    + apply list_elem_of_singleton in Hin as ->.
      apply Permutation_singleton_r in Hp as ->.
      apply list_elem_of_singleton in Hsel as ->. by split.
  - eapply stored_merge.
    + exact (stored_insert _ _ _ _ _
               (stored_insert _ [] [] _ _ (stored_nothing _)
                  (reflexivity [Sample.alice_1]))
               (reflexivity [Sample.alice_2])).
    + apply (merge_older last_seen [] (select_row "N1" [Sample.alice_1])
               [select_row "N1" [Sample.alice_2]]
               (select_row "N1" [Sample.alice_2])).
      * left.
      * reflexivity.
      * reflexivity.
  - eexists. split; [reflexivity|]. by split_and!.
  - eexists. split; [reflexivity|]. by split_and!.
Qed.

End TwoInserts.

(** ** The engine of the specification *)

Section EngineFacts.
Import Engine.
Variable digest : Kind * NodeIdentity * DateTime64 * Payload → Fingerprint.

Lemma ingest_record_fresh (r : TelemetryRecord) (s : Store) :
  fingerprint digest r ∉ seen s →
  ingest_record digest r s
  = (Accepted,
     {| seen := {[fingerprint digest r]} ∪ seen s;
        append_log := append_log s ++ [r];
        node_index := materialize digest r (node_index s);
        edge_index := derive_edge r (edge_index s) |}).
Proof. intros Hnin. unfold ingest_record. by rewrite decide_False. Qed.

Lemma ingest_record_seen (r : TelemetryRecord) (s : Store) :
  fingerprint digest r ∈ seen s → ingest_record digest r s = (Duplicate, s).
Proof. intros Hin. unfold ingest_record. by rewrite decide_True. Qed.

Lemma ingest_all_seen (rs : list TelemetryRecord) (s : Store) :
  Forall (λ r, fingerprint digest r ∈ seen s) rs →
  ingest_all digest rs s = (replicate (length rs) Duplicate, s).
Proof.
  induction 1 as [|r rs Hr _ IH]; simpl; [done|].
  by rewrite ingest_record_seen, IH.
Qed.

(** C2.  Records that agree on variant, origin, mesh time and payload have
    the same fingerprint whatever their broker and ingest time; delivered
    one after the other to a store that has not seen that fingerprint, the
    first is [Accepted], every other is [Duplicate], and the store, its
    NodeState index included, is the one the first delivery left. *)
Theorem dedup_across_brokers
    (r : TelemetryRecord) (rs : list TelemetryRecord) (s : Store) :
  Forall (λ r', kind_of (body r') = kind_of (body r)
                ∧ origin r' = origin r
                ∧ mesh_time r' = mesh_time r
                ∧ body r' = body r) rs →
  fingerprint digest r ∉ seen s →
  Forall (λ r', fingerprint digest r' = fingerprint digest r) rs
  ∧ ingest_all digest (r :: rs) s
    = (Accepted :: replicate (length rs) Duplicate,
       (ingest_record digest r s).2)
  ∧ node_index (ingest_all digest (r :: rs) s).2
    = materialize digest r (node_index s).
Proof.
  intros Hsame Hfresh.
  assert (Hfp : Forall (λ r', fingerprint digest r' = fingerprint digest r) rs).
  { eapply Forall_impl; [exact Hsame|].
    intros r' (Hk & Ho & Ht & Hb). unfold fingerprint.
    by rewrite Hk, Ho, Ht, Hb. }
  split; [exact Hfp|].
  simpl. rewrite (ingest_record_fresh r s Hfresh); simpl.
  rewrite ingest_all_seen; [done|].
  eapply Forall_impl; [exact Hfp|].
  intros r' ->. simpl. set_solver.
Qed.

Lemma edge_key_comm (a b : NodeIdentity) : edge_key a b = edge_key b a.
Proof.
  unfold edge_key. repeat case_bool_decide; try done.
  - f_equal; by apply (anti_symm String.le).
  - destruct (total String.le a b); done.
Qed.

(** C7.  An accepted Advert with an empty hop path, from origin [O] and
    heard by gateway [H], raises the connection count of the edge of [O]
    and [H] by one, sets its last connection to the record's ingest time
    and leaves every other edge alone; an accepted record with a
    non-empty hop path leaves the whole edge index as it was. *)
Theorem edge_derivation
    (r : TelemetryRecord) (s s' : Store) :
  ingest_record digest r s = (Accepted, s') →
  (∀ H, kind_of (body r) = KAdvert → hop_path r = [] → gateway r = Some H →
     edge_count (edge_index s') (origin r) H
     = edge_count (edge_index s) (origin r) H + 1
     ∧ last_connection <$> edge_index s' !! edge_key (origin r) H
       = Some (ingest_time r)
     ∧ ∀ k, k ≠ edge_key (origin r) H →
            edge_index s' !! k = edge_index s !! k)
  ∧ (hop_path r ≠ [] → edge_index s' = edge_index s).
Proof.
  unfold ingest_record. case_decide; [done|]. intros [= <-]; simpl.
  unfold derive_edge. split.
  - intros h Hk Hp Hg. rewrite Hp, Hg.
    destruct (body r); try discriminate Hk.
    unfold edge_count at 1.
    rewrite lookup_insert_eq; simpl. split_and!; [done|done|].
    intros k Hne. by rewrite lookup_insert_ne.
  - intros Hp. destruct (body r), (hop_path r); done.
Qed.

(** C8.  [normalize] answers [MalformedRecord] exactly when the variant
    discriminant, the origin identity or the timestamp is missing, a
    coordinate is outside [-90,90] / [-180,180], or the hop count exceeds
    the configured maximum; such a record is rejected at the ingest
    boundary and the store, its log included, is left as it was.  Any
    other record is returned as a TelemetryRecord carrying the raw
    fields. *)
Theorem normalize_malformed (max_hops : nat) (now : DateTime64)
    (raw : RawRecord) :
  (normalize max_hops now raw = inl MalformedRecord
   ↔ raw_kind raw = None ∨ raw_origin raw = None ∨ raw_mesh_time raw = None
     ∨ (∃ g, raw_coord raw = Some g
             ∧ (lat_in_range (geo_lat g) = false
                ∨ lon_in_range (geo_lon g) = false))
     ∨ (max_hops < length (raw_hop_path raw))%nat)
  ∧ (∀ s, normalize max_hops now raw = inl MalformedRecord →
          ingest digest max_hops now raw s = (Rejected MalformedRecord, s))
  ∧ (∀ r, normalize max_hops now raw = inr r →
          Some (kind_of (body r)) = raw_kind raw
          ∧ Some (origin r) = raw_origin raw
          ∧ Some (mesh_time r) = raw_mesh_time raw
          ∧ ingest_time r = now
          ∧ hop_path r = raw_hop_path raw).
Proof.
  assert (Hrange : coord_in_range (raw_coord raw) = false
                   ↔ ∃ g, raw_coord raw = Some g
                          ∧ (lat_in_range (geo_lat g) = false
                             ∨ lon_in_range (geo_lon g) = false)).
  { unfold coord_in_range. destruct (raw_coord raw) as [g|].
    - rewrite andb_false_iff. split.
      + intros Hor. by exists g.
      + intros (g' & Heq & Hor). by simplify_eq.
    - split; [done|]. by intros (g' & ? & _). }
  unfold ingest, normalize.
  destruct (raw_kind raw) as [k|]; [|split_and!; [split; auto | done | done]].
  destruct (raw_origin raw) as [o|]; [|split_and!; [split; auto | done | done]].
  destruct (raw_mesh_time raw) as [t|]; [|split_and!; [split; auto | done | done]].
  destruct (coord_in_range (raw_coord raw)) eqn:Hc; simpl.
  - case_bool_decide as Hh; simpl.
    + split_and!.
      * split; [done|].
        intros [?|[?|[?|[Hg|?]]]]; try done; [|lia].
        apply Hrange in Hg. congruence.
      * done.
      * intros r [= <-]; simpl. by destruct k.
    + split_and!; [|done|done].
      split; [|done]. intros _. do 4 right. lia.
  - split_and!; [|done|done].
    split; [|done]. intros _. do 3 right. left. by apply Hrange.
Qed.

End EngineFacts.

Lemma dedup_across_brokers_witness :
  Forall (λ r', Engine.fingerprint Sample.digest r'
                = Engine.fingerprint Sample.digest
                    (Sample.heard "broker-a" 1000 []))
    [Sample.heard "broker-b" 1003 []; Sample.heard "broker-c" 1010 []]
  ∧ Engine.ingest_all Sample.digest
      [Sample.heard "broker-a" 1000 [];
       Sample.heard "broker-b" 1003 [];
       Sample.heard "broker-c" 1010 []] Engine.empty_store
    = ([Engine.Accepted; Engine.Duplicate; Engine.Duplicate],
       (Engine.ingest_record Sample.digest (Sample.heard "broker-a" 1000 [])
          Engine.empty_store).2)
  ∧ Engine.node_index
      (Engine.ingest_all Sample.digest
         [Sample.heard "broker-a" 1000 [];
          Sample.heard "broker-b" 1003 [];
          Sample.heard "broker-c" 1010 []] Engine.empty_store).2
    = Engine.materialize Sample.digest (Sample.heard "broker-a" 1000 []) ∅.
Proof.
  apply (dedup_across_brokers Sample.digest
           (Sample.heard "broker-a" 1000 [])
           [Sample.heard "broker-b" 1003 []; Sample.heard "broker-c" 1010 []]
           Engine.empty_store).
  - repeat constructor.
  - simpl. apply not_elem_of_empty.
Defined.

Lemma edge_derivation_witness :
  Engine.edge_count
    (Engine.edge_index
       (Engine.ingest_record Sample.digest (Sample.heard "broker-a" 1000 [])
          Engine.empty_store).2) "N1" "G1"
  = Engine.edge_count (Engine.edge_index Engine.empty_store) "N1" "G1" + 1
  ∧ Engine.edge_index
      (Engine.ingest_record Sample.digest
         (Sample.heard "broker-a" 1000 ["R1"]) Engine.empty_store).2
    = Engine.edge_index Engine.empty_store.
Proof.
  split.
  - apply (edge_derivation Sample.digest (Sample.heard "broker-a" 1000 [])
             Engine.empty_store); reflexivity.
  - apply (edge_derivation Sample.digest
             (Sample.heard "broker-a" 1000 ["R1"]) Engine.empty_store);
      [reflexivity|discriminate].
Defined.

Lemma normalize_malformed_witness :
  Engine.normalize 16 1000 Sample.raw_lat_95 = inl Engine.MalformedRecord.
Proof.
  apply (proj1 (normalize_malformed Sample.digest 16 1000 Sample.raw_lat_95)).
  do 3 right. left. eexists. split; [reflexivity|]. left. reflexivity.
Defined.

(** ** The neighbour query *)

Section NeighborFacts.
Import meshcore_adverts Neighbors.



End NeighborFacts.

(** ** The same advert twice *)

Section Idempotence.
Import meshcore_adverts meshcore_adverts_latest Database.





End Idempotence.

(** ** The put-sample route *)

Section RouteFacts.
Import Route.
Variable Number_toString : Float64 → string.
Variable putSample : Json → Completion unit.

Lemma app_String a (s t : string) : String a s +:+ t = String a (s +:+ t).
Proof. reflexivity. Qed.

Lemma prefix_spec (a b : string) :
  String.prefix a b = true ↔ ∃ post, b = a +:+ post.
Proof.
  revert b. induction a as [|c a IH]; intros b.
  - destruct b; simpl; (split; [intros _; by eexists|done]).
  - destruct b as [|d b]; simpl.
    + split; [done|]. by intros [post Hpost].
    + destruct (Ascii.ascii_dec c d) as [->|Hne].
      * rewrite IH. split; intros [post Hpost]; exists post.
        -- by rewrite app_String, Hpost.
        -- rewrite app_String in Hpost. by simplify_eq.
      * split; [done|]. intros [post Hpost].
        rewrite app_String in Hpost. by simplify_eq.
Qed.

(** [includes] is the substring test. *)
Lemma includes_spec (needle hay : string) :
  includes needle hay = true ↔ ∃ pre post, hay = pre +:+ needle +:+ post.
Proof.
  induction hay as [|c hay IH].
  - change (includes needle "") with (String.prefix needle "" || false).
    rewrite orb_false_r, prefix_spec. split.
    + intros [post Hpost]. by exists "", post.
    + intros (pre & post & Heq). destruct pre; [by exists post|done].
  - change (includes needle (String c hay))
      with (String.prefix needle (String c hay) || includes needle hay).
    rewrite orb_true_iff, prefix_spec, IH. split.
    + intros [[post Hpost]|(pre & post & Heq)].
      * by exists "", post.
      * exists (String c pre), post. by rewrite app_String, Heq.
    + intros (pre & post & Heq). destruct pre as [|d pre].
      * left. by exists post.
      * right. exists pre, post. rewrite app_String in Heq. by simplify_eq.
Qed.

Lemma join_throws_from (sep : string) (items : list Json) :
  Forall (λ v, ∀ t, ToString Number_toString v = Throw t
                    → t = conversion_error) items →
  ∀ t, join_with (ToString Number_toString) sep items = Throw t →
       t = conversion_error.
Proof.
  induction 1 as [|x rest Hx _ IH]; intros t; simpl; [discriminate|].
  destruct (match x with JNull => Normal "" | _ => ToString Number_toString x end)
    as [sx|tx] eqn:Ex; simpl.
  - destruct rest as [|y rest]; [discriminate|].
    destruct (join_with (ToString Number_toString) sep (y :: rest))
      as [sr|tr] eqn:Er; simpl; [discriminate|].
    intros [= <-]. by apply IH.
  - intros [= <-]. destruct x; try discriminate Ex; by apply Hx.
Qed.

Lemma ToString_throws (v : Json) :
  ∀ t, ToString Number_toString v = Throw t → t = conversion_error.
Proof.
  induction v as [|b|n|s|items IH|props _] using Json_nested_ind;
    intros t; simpl; try discriminate.
  - by apply join_throws_from.
  - destruct (own props "toString"); [|discriminate]. by intros [= <-].
Qed.

Lemma join_throws (sep : string) (items : list Json) (t : Thrown) :
  join_with (ToString Number_toString) sep items = Throw t →
  t = conversion_error.
Proof.
  apply join_throws_from, Forall_forall. intros v _. apply ToString_throws.
Qed.

(** What [join] returns is the concatenation of the elements' strings. *)
Lemma join_concat (sep : string) (items : list Json) (s : string) :
  join_with (ToString Number_toString) sep items = Normal s →
  ∃ strs,
    Forall2 (λ x str,
               match x with
               | JNull => Normal ""
               | _ => ToString Number_toString x
               end = Normal str) items strs
    ∧ s = String.concat sep strs.
Proof.
  revert s. induction items as [|x rest IH]; intros s; simpl.
  - intros [= <-]. exists []. by split.
  - destruct (match x with JNull => Normal "" | _ => ToString Number_toString x end)
      as [sx|tx] eqn:Hx; simpl; [|discriminate].
    destruct rest as [|y rest].
    + intros [= <-]. exists [sx]. split; [|done].
      constructor; [done|constructor].
    + destruct (join_with (ToString Number_toString) sep (y :: rest))
        as [sr|tr] eqn:Hr; simpl; [|discriminate].
      intros [= <-]. destruct (IH sr eq_refl) as (strs & Hall & ->).
      exists (sx :: strs). split; [by constructor|].
      destruct strs; [by inversion Hall|done].
Qed.

Lemma catch_block_string (name message : string) :
  (mentions_ClickHouse (ErrorInstance name message)
   ∧ catch_block (ErrorInstance name message) = Normal database_error)
  ∨ (¬ mentions_ClickHouse (ErrorInstance name message)
     ∧ catch_block (ErrorInstance name message) = Normal internal_error).
Proof.
  simpl. destruct (includes "ClickHouse" message) eqn:Hinc.
  - left. split; [|done]. apply includes_spec in Hinc as (pre & post & ->).
    by exists name, (pre +:+ "ClickHouse" +:+ post), pre, post.
  - right. split; [|done].
    intros (name' & message' & pre & post & [= _ <-] & Heq).
    assert (includes "ClickHouse" message = true) as Hyes
      by (apply includes_spec; eauto).
    congruence.
Qed.

Lemma catch_block_not_ok (t : Thrown) : catch_block t ≠ Normal ok_response.
Proof.
  destruct t as [name message|name [t'|[|]]|v]; simpl; try done.
  by destruct (includes "ClickHouse" message).
Qed.

(** What the [catch] block does with a thrown value, by the kind of the
    value. *)
Lemma catch_block_cases (t : Thrown) :
  (catch_block t = Normal database_error
   ↔ mentions_ClickHouse t ∨ ∃ name, t = ErrorOddMessage name (inr true))
  ∧ (catch_block t = Normal internal_error
     ↔ (∃ name message, t = ErrorInstance name message
                        ∧ ¬ mentions_ClickHouse t)
       ∨ (∃ name, t = ErrorOddMessage name (inr false))
       ∨ ∃ v, t = NotAnError v)
  ∧ (∀ t', catch_block t = Throw t'
           ↔ ∃ name, t = ErrorOddMessage name (inl t')).
Proof.
  destruct t as [name message|name [t0|[|]]|v].
  - destruct (catch_block_string name message) as [[Hm Hc]|[Hm Hc]];
      rewrite Hc; split_and!.
    + split; [by left|done].
    + split; [done|]. intros [(? & ? & _ & Hn)|[[? [=]]|[? [=]]]]. done.
    + intros t'. split; [done|]. by intros [? [=]].
    + split; [done|]. intros [?|[? [=]]]. done.
    + split; [|done]. intros _. left. by exists name, message.
    + intros t'. split; [done|]. by intros [? [=]].
  - simpl. split_and!.
    + split; [done|]. intros [(? & ? & ? & ? & [=] & _)|[? [=]]].
    + split; [done|]. intros [(? & ? & [=] & _)|[[? [=]]|[? [=]]]].
    + intros t'. split; [intros [= ->]; by exists name|].
      by intros [? [= _ ->]].
  - simpl. split_and!.
    + split; [intros _; right; by exists name|done].
    + split; [done|]. intros [(? & ? & [=] & _)|[[? [=]]|[? [=]]]].
    + intros t'. split; [done|]. by intros [? [=]].
  - simpl. split_and!.
    + split; [done|]. intros [(? & ? & ? & ? & [=] & _)|[? [=]]].
    + split; [|done]. intros _. right. left. by exists name.
    + intros t'. split; [done|]. by intros [? [=]].
  - simpl. split_and!.
    + split; [done|]. intros [(? & ? & ? & ? & [=] & _)|[? [=]]].
    + split; [|done]. intros _. right. right. by exists v.
    + intros t'. split; [done|]. by intros [? [=]].
Qed.

(** The [try] block completes as [insert_succeeds] and
    [processing_throws] say. *)
Lemma try_block_completion (req_json : Completion Json) :
  ((try_block Number_toString putSample req_json).1 = Normal tt
   ↔ insert_succeeds Number_toString putSample req_json)
  ∧ ∀ t, (try_block Number_toString putSample req_json).1 = Throw t
         ↔ processing_throws Number_toString putSample req_json t.
Proof.
  unfold try_block, insert_succeeds, processing_throws.
  destruct req_json as [body|t0]; simpl.
  - destruct (path_join Number_toString body) as [s|t1] eqn:Hj; simpl.
    + split.
      * split; [intros Hp; by exists body, s|].
        intros (b & s' & [= <-] & Hs & Hp). congruence.
      * intros t. split.
        -- intros Hp. right. right. by exists body, s.
        -- intros [[=]|[(b & [= <-] & Hs)|(b & s' & [= <-] & Hs & Hp)]];
             congruence.
    + split.
      * split; [done|]. intros (b & s' & [= <-] & Hs & _). congruence.
      * intros t. split.
        -- intros [= ->]. right. left. by exists body.
        -- intros [[=]|[(b & [= <-] & Hs)|(b & s' & [= <-] & Hs & _)]];
             congruence.
  - split.
    + split; [done|]. by intros (b & s' & [=] & _).
    + intros t. split.
      * intros [= ->]. by left.
      * intros [[= ->]|[(b & [=] & _)|(b & s' & [=] & _)]]. done.
Qed.

(** C9, as amended.  The handler answers 200 with result ok exactly when
    the insert succeeds ([req.json()] returned, the join returned and
    [putSample] completed on the body with the joined path).  When
    processing threw, the answer is 503 DATABASE_ERROR exactly when the
    thrown value is an [Error] on which
    [error.message.includes('ClickHouse')] returned a truthy value (for
    a string message: it contains the substring ClickHouse), and 500
    INTERNAL_ERROR exactly when the thrown value is not an [Error] or
    that test returned a falsy value.  The handler itself throws exactly
    when processing threw an [Error] on whose message the test throws;
    in every other case it returns one of the three responses. *)
Theorem POST_three_statuses (req_json : Completion Json) :
  ((POST Number_toString putSample req_json).1 = Normal ok_response
   ↔ insert_succeeds Number_toString putSample req_json)
  ∧ ((POST Number_toString putSample req_json).1 = Normal database_error
     ↔ ∃ t, processing_throws Number_toString putSample req_json t
            ∧ (mentions_ClickHouse t
               ∨ ∃ name, t = ErrorOddMessage name (inr true)))
  ∧ ((POST Number_toString putSample req_json).1 = Normal internal_error
     ↔ ∃ t, processing_throws Number_toString putSample req_json t
            ∧ ((∃ name message, t = ErrorInstance name message
                                ∧ ¬ mentions_ClickHouse t)
               ∨ (∃ name, t = ErrorOddMessage name (inr false))
               ∨ ∃ v, t = NotAnError v))
  ∧ (∀ t', (POST Number_toString putSample req_json).1 = Throw t'
           ↔ ∃ name,
               processing_throws Number_toString putSample req_json
                 (ErrorOddMessage name (inl t')))
  ∧ ((∀ name t', ¬ processing_throws Number_toString putSample req_json
                     (ErrorOddMessage name (inl t'))) →
     ∃ resp, (POST Number_toString putSample req_json).1 = Normal resp
             ∧ (resp = ok_response ∨ resp = database_error
                ∨ resp = internal_error)
             ∧ (status resp = 200 ∨ status resp = 503 ∨ status resp = 500)).
Proof.
  destruct (try_block_completion req_json) as [Hok Hthrow].
  unfold POST.
  destruct (try_block Number_toString putSample req_json) as [[[]|t] calls]
    eqn:Htry; simpl in *.
  - assert (Hnone : ∀ t, ¬ processing_throws Number_toString putSample
                           req_json t)
      by (intros t Ht; by apply Hthrow in Ht).
    split_and!.
    + split; [intros _; by apply Hok|done].
    + split; [done|]. intros (t & Ht & _). by apply Hnone in Ht.
    + split; [done|]. intros (t & Ht & _). by apply Hnone in Ht.
    + intros t'. split; [done|]. intros (name & Ht). by apply Hnone in Ht.
    + intros _. exists ok_response. split_and!; [done|by left|by left].
  - assert (Ht : processing_throws Number_toString putSample req_json t)
      by (by apply Hthrow).
    assert (Honly : ∀ t0, processing_throws Number_toString putSample
                            req_json t0 → t0 = t).
    { intros t0 H0. apply Hthrow in H0. congruence. }
    destruct (catch_block_cases t) as (Hdb & Hint & Hprop).
    split_and!.
    + split.
      * intros Hc. by apply catch_block_not_ok in Hc.
      * intros Hi. apply Hok in Hi. discriminate Hi.
    + rewrite Hdb. split; [intros Hc; by exists t|].
      intros (t0 & H0 & Hc). by rewrite (Honly t0 H0) in Hc.
    + rewrite Hint. split; [intros Hc; by exists t|].
      intros (t0 & H0 & Hc). by rewrite (Honly t0 H0) in Hc.
    + intros t'. rewrite Hprop. split.
      * intros [name ->]. by exists name.
      * intros [name H0]. exists name. by rewrite (Honly _ H0).
    + intros Hno.
      destruct (catch_block t) as [resp|t'] eqn:Hc.
      * exists resp. split; [done|].
        destruct t as [name message|name [t0|[|]]|v]; simpl in Hc.
        -- destruct (includes "ClickHouse" message); injection Hc as <-; auto.
        -- done.
        -- injection Hc as <-; auto.
        -- injection Hc as <-; auto.
        -- injection Hc as <-; auto.
      * exfalso. destruct (proj1 (Hprop t') eq_refl) as [name ->].
        by apply (Hno name t').
Qed.

Lemma path_join_not_array (body : Json) :
  (¬ ∃ props items,
       body = JObject props ∧ own props "path" = Some (JArray items)) →
  ∃ message,
    path_join Number_toString body = Throw (TypeError message)
    ∧ includes "ClickHouse" message = false.
Proof.
  intros Hno. destruct body as [|b|n|s|items|props]; simpl;
    try (eexists; split; [reflexivity|reflexivity]).
  destruct (own props "path") as [[|b|n|s|items|props']|] eqn:Hp;
    try (eexists; split; [reflexivity|reflexivity]).
  exfalso. apply Hno. by exists props, items.
Qed.

(** C10.  When the body is an object whose [path] is an array and the
    join returns, [putSample] is called once, with the body whose [path]
    property now holds the joined string: the strings of the elements
    written one after the other.  When the body has no [path] or its
    [path] is not an array, a [TypeError] is thrown before [putSample] is
    reached, no call is made and the answer is 500 INTERNAL_ERROR. *)
Theorem POST_path_join (body : Json) :
  (∀ props items s,
     body = JObject props →
     own props "path" = Some (JArray items) →
     join_with (ToString Number_toString) "" items = Normal s →
     (POST Number_toString putSample (Normal body)).2
     = [JObject (set_own props "path" (JString s))]
     ∧ own (set_own props "path" (JString s)) "path" = Some (JString s)
     ∧ ∃ strs,
         Forall2 (λ x str,
                    match x with
                    | JNull => Normal ""
                    | _ => ToString Number_toString x
                    end = Normal str) items strs
         ∧ s = String.concat "" strs)
  ∧ ((¬ ∃ props items,
          body = JObject props ∧ own props "path" = Some (JArray items)) →
     (∃ message,
        path_join Number_toString body = Throw (TypeError message))
     ∧ POST Number_toString putSample (Normal body)
       = (Normal internal_error, [])).
Proof.
  split.
  - intros props items s -> Hp Hj. split_and!.
    + unfold POST, try_block; simpl. rewrite Hp, Hj; simpl.
      by destruct (putSample _).
    + clear Hj. induction props as [|[k v] props IH]; simpl in *.
      * done.
      * destruct (String.eqb k "path") eqn:Hk; simpl; [done|].
        rewrite Hk. by apply IH.
    + by apply join_concat.
  - intros Hno.
    destruct (path_join_not_array body Hno) as (message & Hthrow & Hinc).
    split; [by exists message|].
    unfold POST, try_block. rewrite Hthrow; simpl. by rewrite Hinc.
Qed.

End RouteFacts.

(** C9, as stated, fails: when [putSample] throws an [Error] whose
    [message] is [undefined], the test in the [catch] block throws a
    [TypeError], which leaves the handler. *)
Lemma POST_propagates_the_throw_of_its_catch_block :
  Route.POST Sample.number_text
    (λ _, Route.Throw (Route.error_without_message "Error"))
    (Route.Normal Sample.body_with_path)
  = (Route.Throw
       (Route.TypeError
          "Cannot read properties of undefined (reading 'includes')"),
     [Route.JObject
        [("lat", Route.JNumber 47.6%float);
         ("path", Route.JString "a1b2")]]).
Proof. reflexivity. Qed.


Lemma POST_path_join_witness :
  (Route.POST Sample.number_text Sample.insert_ok
     (Route.Normal Sample.body_with_path)).2
  = [Route.JObject
       [("lat", Route.JNumber 47.6%float); ("path", Route.JString "a1b2")]]
  ∧ Route.POST Sample.number_text Sample.insert_ok
      (Route.Normal Sample.body_without_path)
    = (Route.Normal Route.internal_error, []).
Proof.
  split.
  - apply (proj1 (POST_path_join Sample.number_text Sample.insert_ok
                    Sample.body_with_path)
             [("lat", Route.JNumber 47.6%float);
              ("path", Route.JArray [Route.JString "a1"; Route.JString "b2"])]
             [Route.JString "a1"; Route.JString "b2"] "a1b2");
      reflexivity.
  - apply (proj2 (POST_path_join Sample.number_text Sample.insert_ok
                    Sample.body_without_path)).
    intros (props & items & Hbody & Hpath).
    injection Hbody as <-. discriminate Hpath.
Defined.

(** ** The put-sample route: the object that is inserted *)

Section RouteInsert.
Import Route RouteEdge.
Variable Number_toString : Float64 → string.
Variable putSample : Json → Completion unit.

Lemma own_set_own (props : list (string * Json)) (k : string) (v : Json) :
  own (set_own props k v) k = Some v.
Proof.
  induction props as [|[k' v'] props IH]; simpl.
  - by rewrite String.eqb_refl.
  - destruct (String.eqb k' k) eqn:Hk; simpl.
    + by rewrite String.eqb_refl.
    + by rewrite Hk.
Qed.

Lemma own_set_own_ne (props : list (string * Json)) (k k' : string) (v : Json) :
  k' ≠ k → own (set_own props k v) k' = own props k'.
Proof.
  intros Hne.
  assert (Hkk : String.eqb k k' = false) by (apply String.eqb_neq; congruence).
  induction props as [|[k0 v0] props IH]; simpl.
  - by rewrite Hkk.
  - destruct (String.eqb k0 k) eqn:Hk; simpl.
    + apply String.eqb_eq in Hk as ->. by rewrite Hkk.
    + by rewrite IH.
Qed.

Lemma set_own_keys (props : list (string * Json)) (k : string) (v : Json) :
  is_Some (own props k) → (set_own props k v).*1 = props.*1.
Proof.
  induction props as [|[k0 v0] props IH]; cbn [own set_own].
  - by intros [? ?].
  - destruct (String.eqb k0 k) eqn:Hk.
    + apply String.eqb_eq in Hk as ->. done.
    + intros Hs. rewrite !fmap_cons. f_equal. by apply IH.
Qed.

Lemma POST_calls_on_array (props : list (string * Json)) (items : list Json)
    (s : string) :
  own props "path" = Some (JArray items) →
  join_with (ToString Number_toString) "" items = Normal s →
  (POST Number_toString putSample (Normal (JObject props))).2
  = [JObject (set_own props "path" (JString s))].
Proof.
  intros Hp Hj. unfold POST, try_block; simpl. rewrite Hp, Hj; simpl.
  by destruct (putSample _).
Qed.

(** X4.  The object handed to [putSample] is the request body with its
    [path] replaced in place: it has the same keys in the same order, its
    [path] is the joined string, and every other property is the one the
    body had. *)
Theorem POST_keeps_other_properties
    (props : list (string * Json)) (items : list Json) (s : string) :
  own props "path" = Some (JArray items) →
  join_with (ToString Number_toString) "" items = Normal s →
  ∃ props',
    (POST Number_toString putSample (Normal (JObject props))).2
    = [JObject props']
    ∧ props'.*1 = props.*1
    ∧ own props' "path" = Some (JString s)
    ∧ ∀ k, k ≠ "path" → own props' k = own props k.
Proof.
  intros Hp Hj. exists (set_own props "path" (JString s)). split_and!.
  - by apply (POST_calls_on_array props items).
  - apply set_own_keys. by rewrite Hp.
  - apply own_set_own.
  - intros k Hk. by apply own_set_own_ne.
Qed.

(** X5.  [putSample] is called at most once per request, and exactly when
    [req.json()] returned a body whose [path.join('')] returned.  The
    answer 200 is given only after that one call completed without a
    throw. *)
Theorem POST_ok_means_inserted (req_json : Completion Json) :
  (length (POST Number_toString putSample req_json).2 ≤ 1)%nat
  ∧ ((POST Number_toString putSample req_json).2 ≠ []
     ↔ ∃ body s, req_json = Normal body
                 ∧ path_join Number_toString body = Normal s)
  ∧ ((POST Number_toString putSample req_json).1 = Normal ok_response →
     ∃ sample u,
       (POST Number_toString putSample req_json).2 = [sample]
       ∧ putSample sample = Normal u).
Proof.
  unfold POST, try_block.
  destruct req_json as [body|t]; simpl.
  - destruct (path_join Number_toString body) as [s|t] eqn:Hj; simpl.
    + destruct (putSample (assign_path body s)) as [u|t] eqn:Hput; simpl.
      * split_and!; [lia| |].
        -- split; [intros _; by exists body, s|done].
        -- intros _. by exists (assign_path body s), u.
      * split_and!; [lia| |].
        -- split; [intros _; by exists body, s|done].
        -- intros Hr. by apply catch_block_not_ok in Hr.
    + split_and!; [lia| |].
      * split; [done|]. intros (b & s & [= <-] & Hs). congruence.
      * intros Hr. by apply catch_block_not_ok in Hr.
  - split_and!; [lia| |].
    + split; [done|]. by intros (b & s & ? & _).
    + intros Hr. by apply catch_block_not_ok in Hr.
Qed.

(** X6.  The 503 DATABASE_ERROR answer does not mean the database was
    reached: when [req.json()] itself throws an [Error] whose message
    contains ClickHouse (a body that is not JSON and quotes that word),
    the answer is 503 and [putSample] was never called. *)
Theorem POST_database_error_without_insert (name message pre post : string) :
  message = pre +:+ "ClickHouse" +:+ post →
  POST Number_toString putSample (Throw (ErrorInstance name message))
  = (Normal database_error, []).
Proof.
  intros Hm. unfold POST, try_block; simpl.
  assert (includes "ClickHouse" message = true) as ->; [|done].
  apply includes_spec. by exists pre, post.
Qed.

(** X7.  The object the handler inserts is not itself an acceptable
    request: posted back, its [path] is a string, the join throws, nothing
    is inserted and the answer is 500 INTERNAL_ERROR. *)
Theorem POST_rejects_its_own_sample
    (props : list (string * Json)) (s : string) :
  POST Number_toString putSample (Normal (assign_path (JObject props) s))
  = (Normal internal_error, []).
Proof.
  unfold POST, try_block; simpl. by rewrite own_set_own.
Qed.

Lemma join_strings (sep : string) (ss : list string) :
  join_with (ToString Number_toString) sep (JString <$> ss)
  = Normal (String.concat sep ss).
Proof.
  induction ss as [|x ss IH]; [done|].
  rewrite fmap_cons. simpl. destruct ss as [|y ss]; [done|].
  rewrite fmap_cons in *. by rewrite IH.
Qed.

Lemma string_length_app (a b : string) :
  String.length (a +:+ b) = (String.length a + String.length b)%nat.
Proof.
  induction a as [|c a IH]; [done|].
  rewrite app_String. simpl. by rewrite IH.
Qed.

Lemma concat_empty_length (ss : list string) :
  String.length (String.concat "" ss) = sum_list (String.length <$> ss).
Proof.
  induction ss as [|x ss IH]; [done|].
  destruct ss as [|y ss]; simpl in *.
  - lia.
  - rewrite !string_length_app, IH. simpl. lia.
Qed.

(** X8.  For a body whose [path] is an array of strings, the inserted
    [path] is those strings written one after the other, nothing added
    between them: its length is the sum of their lengths. *)
Theorem POST_joins_path_segments
    (props : list (string * Json)) (segments : list string) :
  own props "path" = Some (JArray (JString <$> segments)) →
  (POST Number_toString putSample (Normal (JObject props))).2
  = [JObject (set_own props "path" (JString (String.concat "" segments)))]
  ∧ String.length (String.concat "" segments)
    = sum_list (String.length <$> segments).
Proof.
  intros Hp. split; [|apply concat_empty_length].
  apply (POST_calls_on_array props (JString <$> segments));
    [done|apply join_strings].
Qed.

Lemma join_returns_iff (sep : string) (items : list Json) :
  Forall (λ v, (∃ s, ToString Number_toString v = Normal s)
               ↔ unprintable v = false) items →
  (∃ s, join_with (ToString Number_toString) sep items = Normal s)
  ↔ existsb unprintable items = false.
Proof.
  induction 1 as [|x rest Hx _ IH]; simpl.
  - split; [done|]. intros _. by eexists.
  - rewrite orb_false_iff, <- IH.
    assert (Hx' : (∃ s, match x with
                        | JNull => Normal ""
                        | _ => ToString Number_toString x
                        end = Normal s) ↔ unprintable x = false).
    { destruct x; try done. split; [done|]. intros _. by eexists. }
    rewrite <- Hx'. clear Hx Hx' IH.
    destruct (match x with JNull => Normal "" | _ => ToString Number_toString x end)
      as [sx|tx]; simpl.
    + destruct rest as [|y rest].
      * split; [intros _|intros _; by eexists].
        split; by eexists.
      * destruct (join_with (ToString Number_toString) sep (y :: rest))
          as [sr|tr]; simpl.
        -- split; [intros _|intros _; by eexists]. split; by eexists.
        -- split; [by intros [? ?]|]. by intros [_ [? ?]].
    + split; [by intros [? ?]|]. by intros [[? ?] _].
Qed.

Lemma ToString_returns_iff (v : Json) :
  (∃ s, ToString Number_toString v = Normal s) ↔ unprintable v = false.
Proof.
  induction v as [|b|n|s|items IH|props _] using Json_nested_ind; simpl;
    try (split; [done|intros _; by eexists]).
  - by apply join_returns_iff.
  - destruct (own props "toString").
    + split; [by intros [? ?]|done].
    + split; [done|intros _; by eexists].
Qed.

(** X9.  A body whose [path] is an array is turned away exactly when the
    array holds, directly or inside nested arrays, an object with an own
    [toString] property: the join then throws, [putSample] is not called
    and the answer is 500 INTERNAL_ERROR.  For every other array
    [putSample] is called. *)
Theorem POST_array_rejected_iff
    (props : list (string * Json)) (items : list Json) :
  own props "path" = Some (JArray items) →
  (existsb unprintable items = true
   → POST Number_toString putSample (Normal (JObject props))
     = (Normal internal_error, []))
  ∧ (existsb unprintable items = false
     → ∃ s, join_with (ToString Number_toString) "" items = Normal s
            ∧ (POST Number_toString putSample (Normal (JObject props))).2
              = [JObject (set_own props "path" (JString s))]).
Proof.
  intros Hp.
  assert (Hiff : (∃ s, join_with (ToString Number_toString) "" items = Normal s)
                 ↔ existsb unprintable items = false).
  { apply join_returns_iff, Forall_forall. intros v _.
    apply ToString_returns_iff. }
  split.
  - intros Hbad. unfold POST, try_block; simpl. rewrite Hp.
    destruct (join_with (ToString Number_toString) "" items) as [s|t] eqn:Hj.
    + assert (existsb unprintable items = false) by (apply Hiff; by exists s).
      congruence.
    + simpl. by rewrite (join_throws Number_toString _ _ _ Hj).
  - intros Hgood. apply Hiff in Hgood as [s Hs]. exists s. split; [done|].
    by apply (POST_calls_on_array props items).
Qed.

End RouteInsert.

Lemma POST_keeps_other_properties_witness :
  ∃ props',
    (Route.POST Sample.number_text Sample.insert_ok
       (Route.Normal Sample.body_with_path)).2
    = [Route.JObject props']
    ∧ props'.*1 = ["lat"; "path"]
    ∧ Route.own props' "path" = Some (Route.JString "a1b2")
    ∧ Route.own props' "lat" = Some (Route.JNumber 47.6%float).
Proof.
  destruct (POST_keeps_other_properties Sample.number_text Sample.insert_ok
              [("lat", Route.JNumber 47.6%float);
               ("path", Route.JArray [Route.JString "a1"; Route.JString "b2"])]
              [Route.JString "a1"; Route.JString "b2"] "a1b2"
              eq_refl eq_refl)
    as (props' & Hcall & Hkeys & Hpath & Hrest).
  exists props'. split_and!; [exact Hcall|exact Hkeys|exact Hpath|].
  by rewrite (Hrest "lat").
Defined.

Lemma POST_database_error_without_insert_witness :
  Route.POST Sample.number_text Sample.insert_ok
    (Route.Throw
       (Route.ErrorInstance "SyntaxError"
          "Unexpected token C in JSON: ClickHouse is down"))
  = (Route.Normal Route.database_error, []).
Proof.
  apply (POST_database_error_without_insert Sample.number_text
           Sample.insert_ok "SyntaxError"
           "Unexpected token C in JSON: ClickHouse is down"
           "Unexpected token C in JSON: " " is down").
  reflexivity.
Defined.

Lemma POST_joins_path_segments_witness :
  (Route.POST Sample.number_text Sample.insert_ok
     (Route.Normal Sample.body_with_path)).2
  = [Route.JObject
       [("lat", Route.JNumber 47.6%float); ("path", Route.JString "a1b2")]].
Proof.
  apply (POST_joins_path_segments Sample.number_text Sample.insert_ok
           [("lat", Route.JNumber 47.6%float);
            ("path", Route.JArray [Route.JString "a1"; Route.JString "b2"])]
           ["a1"; "b2"]).
  reflexivity.
Defined.

Lemma POST_array_rejected_iff_witness :
  Route.POST Sample.number_text Sample.insert_ok
    (Route.Normal (Route.JObject Sample.body_with_object_in_path))
  = (Route.Normal Route.internal_error, []).
Proof.
  apply (POST_array_rejected_iff Sample.number_text Sample.insert_ok
           Sample.body_with_object_in_path
           [Route.JString "a1"; Route.JObject [("toString", Route.JNull)]]);
    reflexivity.
Defined.

(** ** Stored order and scans *)

Section SortedFacts.
Context {A : Type}.
Implicit Types (R : relation A) (l : list A).

Lemma Sorted_weaken R R' l :
  (∀ x y, R x y → R' x y) → Sorted R l → Sorted R' l.
Proof.
  intros Himp. induction 1 as [|x l _ IH Hhd]; constructor; [done|].
  destruct Hhd; constructor; auto.
Qed.

Lemma StronglySorted_weaken_in R R' l :
  (∀ x y, x ∈ l → y ∈ l → R x y → R' x y) →
  StronglySorted R l → StronglySorted R' l.
Proof.
  intros Himp Hs. induction Hs as [|x l Hs IH Hall]; constructor.
  - apply IH. intros y z Hy Hz. apply Himp; by right.
  - rewrite Forall_forall in *. intros y Hy.
    apply Himp; [left|by right|by apply Hall].
Qed.

Lemma StronglySorted_filter R (P : A → Prop) `{∀ x, Decision (P x)} l :
  StronglySorted R l → StronglySorted R (filter P l).
Proof.
  induction 1 as [|x l Hs IH Hall]; [constructor|].
  destruct (decide (P x)) as [Hx|Hx].
  - rewrite filter_cons_True by done. constructor; [done|].
    rewrite Forall_forall in *. intros y [_ Hy]%list_elem_of_filter. eauto.
  - by rewrite filter_cons_False.
Qed.

End SortedFacts.

Section StoredOrder.
Import MergeTree.

#[local] Instance packets_order_total : Total packets_order.
Proof.
  intros a b. unfold packets_order, str_lt.
  destruct (Z.lt_trichotomy (meshcore_packets.ingest_timestamp a)
              (meshcore_packets.ingest_timestamp b)) as [?|[Ht|?]];
    [left; by left| |right; by left].
  destruct (decide (meshcore_packets.broker a = meshcore_packets.broker b))
    as [Hb|Hb].
  - destruct (total String.le (meshcore_packets.topic a)
                (meshcore_packets.topic b)); [left|right]; right; eauto.
  - destruct (total String.le (meshcore_packets.broker a)
                (meshcore_packets.broker b)); [left|right]; right;
      (split; [done|left; split; [done|congruence]]).
Qed.

#[local] Instance adverts_order_total : Total adverts_order.
Proof.
  intros a b. unfold adverts_order, str_lt.
  destruct (decide (meshcore_adverts.public_key a
                    = meshcore_adverts.public_key b)) as [Hk|Hk].
  - destruct (Z.le_ge_cases (meshcore_adverts.ingest_timestamp a)
                (meshcore_adverts.ingest_timestamp b));
      [left|right]; right; split; [done|lia|done|lia].
  - destruct (total String.le (meshcore_adverts.public_key a)
                (meshcore_adverts.public_key b)); [left|right]; left;
      (split; [done|congruence]).
Qed.

#[local] Instance adverts_order_trans : Transitive adverts_order.
Proof.
  intros a b c. unfold adverts_order, str_lt.
  intros [[Hab Hne]|[Hab Ht]] [[Hbc Hne']|[Hbc Ht']].
  - left. split; [by etrans|]. intros Heq. rewrite <- Heq in Hbc.
    apply Hne. by apply (anti_symm String.le).
  - left. rewrite <- Hbc. by split.
  - left. rewrite Hab. by split.
  - right. split; [congruence|lia].
Qed.

#[local] Instance packets_ingest_le_total : Total packets_ingest_le.
Proof. intros a b. unfold packets_ingest_le. lia. Qed.

#[local] Instance packets_ingest_le_trans : Transitive packets_ingest_le.
Proof. intros a b c. unfold packets_ingest_le. lia. Qed.

Lemma stored_packets_sorted (tbl : list Packet) (b : Z) :
  Sorted packets_ingest_le (stored_packets tbl b).
Proof.
  apply Sorted_weaken with (R := packets_order).
  - unfold packets_order, packets_ingest_le. intros x y [?|[? _]]; lia.
  - apply Sorted_merge_sort, _.
Qed.

Lemma merged_partitions_sorted (tbl : list Packet) (bs : list Z) :
  Sorted packets_ingest_le
    (foldr (λ b acc, list_merge packets_ingest_le (stored_packets tbl b) acc)
       [] bs).
Proof.
  induction bs as [|b bs IH]; simpl; [constructor|].
  apply Sorted_list_merge; [apply _|apply stored_packets_sorted|done].
Qed.

Lemma merged_partitions_elem (tbl : list Packet) (bs : list Z) (r : Packet) :
  r ∈ foldr (λ b acc, list_merge packets_ingest_le (stored_packets tbl b) acc)
        [] bs
  ↔ r ∈ tbl ∧ meshcore_packets.partition_key r ∈ bs.
Proof.
  induction bs as [|b bs IH]; simpl.
  - rewrite elem_of_nil. set_solver.
  - rewrite merge_Permutation, elem_of_app, IH. unfold stored_packets.
    rewrite merge_sort_Permutation, list_elem_of_filter, elem_of_cons.
    naive_solver.
Qed.

(** C6, as amended.  A stored partition of [meshcore_packets] is in
    ingest-time order, and a scan that merges the stored partitions by
    ingest time returns exactly the matching rows, in ingest-time order.
    A stored partition of [meshcore_adverts] is ordered by public key
    first: within it, the rows of one public key are in ingest-time
    order. *)
Theorem stored_order :
  (∀ (tbl : list Packet) b, Sorted packets_ingest_le (stored_packets tbl b))
  ∧ (∀ pred range (tbl : list Packet),
       Sorted packets_ingest_le (scan_packets pred range tbl)
       ∧ ∀ r, r ∈ scan_packets pred range tbl
              ↔ r ∈ tbl
                ∧ range.1 ≤ meshcore_packets.ingest_timestamp r ≤ range.2
                ∧ pred r = true)
  ∧ (∀ (tbl : list Advert) b key,
       Sorted adverts_ingest_le
         (filter (λ r, meshcore_adverts.public_key r = key)
            (stored_adverts tbl b))).
Proof.
  split_and!.
  - apply stored_packets_sorted.
  - intros pred range tbl. unfold scan_packets. split.
    + apply StronglySorted_Sorted, StronglySorted_filter.
      apply Sorted_StronglySorted; [apply _|].
      apply merged_partitions_sorted.
    + intros r. rewrite list_elem_of_filter, merged_partitions_elem.
      rewrite elem_of_remove_dups, list_elem_of_fmap. naive_solver.
  - intros tbl b key. apply StronglySorted_Sorted.
    apply StronglySorted_weaken_in with (R := adverts_order).
    + intros x y [Hx _]%list_elem_of_filter [Hy _]%list_elem_of_filter.
      unfold adverts_order, str_lt, adverts_ingest_le.
      intros [[_ Hne]|[_ ?]]; [congruence|done].
    + apply StronglySorted_filter, StronglySorted_merge_sort; apply _.
Qed.

(** C6, as stated, fails on [meshcore_adverts]: N1 announced after N2,
    both in January 1970, is stored before it. *)
Lemma stored_adverts_not_in_ingest_order :
  ¬ Sorted adverts_ingest_le
      (stored_adverts
         [Sample.advert "N2" "Bob" 1000 None None 0 "G1" "f1";
          Sample.advert "N1" "Alice" 2000 None None 0 "G1" "f2"] 197001).
Proof.
  intros H. apply (bool_decide_pack _) in H. vm_compute in H. exact H.
Qed.

End StoredOrder.

(** ** Retention *)

Section RetentionFacts.
Import meshcore_adverts meshcore_adverts_latest Retention.

Lemma elem_of_apply_ttl (now ttl : Z) (tbl : list Advert) (r : Advert) :
  r ∈ apply_ttl now ttl tbl ↔ r ∈ tbl ∧ now - ttl < ingest_timestamp r.
Proof.
  unfold apply_ttl, expired. rewrite list_elem_of_filter.
  split; intros [? ?]; split; (done || lia).
Qed.

(** The [last_seen] of a row of the view is the ingest timestamp of an
    advert of its key in one of the inserts. *)
Lemma last_seen_of_an_advert ver (inserts : list (list Advert))
    (rows : list NodeState) (n : NodeState) :
  stored ver inserts rows → n ∈ rows →
  ∃ blk w, blk ∈ inserts ∧ w ∈ blk ∧ public_key w = ns_public_key n
           ∧ ingest_timestamp w = last_seen n.
Proof.
  intros Hst Hn.
  destruct (stored_elem ver inserts rows Hst n Hn)
    as (blk & read & Hin & Hp & Hsel).
  apply elem_of_select in Hsel as (r0 & Hr0 & ->).
  assert (Hne : group (public_key r0) read ≠ []).
  { intros Hnil.
    by apply (proj1 (filter_nil_iff (λ r, public_key r = public_key r0) read)
                Hnil r0). }
  destruct (select_row_summary (public_key r0) read Hne)
    as (Hkey & _ & _ & _ & (w & Hw & Hmax & _)).
  apply list_elem_of_filter in Hw as [Hwk Hw].
  exists blk, w. rewrite Hkey. split_and!; [done| |done|done].
  by rewrite <- Hp.
Qed.

(** C3, as amended.  Once the TTL of the table has been applied at
    [now], a scan returns no record older than [now - ttl] and has lost
    no record newer than that.  The rows are deleted one by one: what
    is left of a partition are its rows that have not expired, so a
    partition that straddles [now - ttl] is left with a part of its
    rows.  The NodeState of an identity all of whose adverts were
    deleted stays in the view: whatever the merges did the view still
    returns a row under its key, and every such row is stale, its
    [last_seen] being [now - ttl] or older. *)
Theorem retention_by_ttl (now ttl : Z) :
  (∀ tbl range pred r,
     r ∈ scan_history range pred (apply_ttl now ttl tbl) →
     r ∈ tbl ∧ ¬ ingest_timestamp r < now - ttl)
  ∧ (∀ tbl r, r ∈ tbl → now - ttl < ingest_timestamp r →
              r ∈ apply_ttl now ttl tbl)
  ∧ (∀ tbl b,
       partition (apply_ttl now ttl tbl) b = apply_ttl now ttl (partition tbl b))
  ∧ (∀ ver inserts rows key,
       stored ver inserts rows →
       (∃ blk r, blk ∈ inserts ∧ r ∈ blk ∧ public_key r = key) →
       (∀ r, r ∈ apply_ttl now ttl (concat inserts) → public_key r ≠ key) →
       lookup key rows ≠ []
       ∧ ∀ n, n ∈ lookup key rows → last_seen n ≤ now - ttl).
Proof.
  split_and!.
  - intros tbl range pred r Hr. unfold scan_history in Hr.
    apply list_elem_of_filter in Hr as [_ Hr].
    apply elem_of_apply_ttl in Hr as [? ?]. split; [done|lia].
  - intros tbl r Hr Hnew. by apply elem_of_apply_ttl.
  - intros tbl b. unfold partition, apply_ttl.
    induction tbl as [|r tbl IH]; [done|].
    destruct (decide (expired now ttl r)), (decide (partition_key r = b));
      repeat (first [rewrite filter_cons_True by done
                    |rewrite filter_cons_False by tauto]);
      by rewrite IH.
  - intros ver inserts rows key Hst Hhas Hgone. split.
    + by apply (stored_has_key ver inserts rows key).
    + intros n [Hkey Hn]%list_elem_of_filter.
      destruct (last_seen_of_an_advert ver inserts rows n Hst Hn)
        as (blk & w & Hin & Hw & Hwk & <-).
      destruct (decide (now - ttl < ingest_timestamp w)) as [Hnew|]; [|lia].
      exfalso. apply (Hgone w); [|congruence].
      apply elem_of_apply_ttl. split; [|done].
      apply elem_of_concat. by exists blk.
Qed.

(** C3, as stated, fails: eviction is not in whole partitions.  On
    2025-11-15, with the retention of 90 days, the advert of 2025-08-05
    has expired and the one of 2025-08-25 has not: the partition of
    August 2025 loses the first and keeps the second. *)
Lemma ttl_leaves_a_partition_partial :
  apply_ttl Sample.nov_15 default_ttl [Sample.aug_05; Sample.aug_25]
  = [Sample.aug_25]
  ∧ partition_key Sample.aug_05 = 202508
  ∧ partition_key Sample.aug_25 = 202508
  ∧ partition (apply_ttl Sample.nov_15 default_ttl
                 [Sample.aug_05; Sample.aug_25]) 202508
    = [Sample.aug_25]
  ∧ partition [Sample.aug_05; Sample.aug_25] 202508
    = [Sample.aug_05; Sample.aug_25].
Proof. by split_and!. Qed.

End RetentionFacts.

(** ** Grouping a table by a key *)

Section Grouping.
Context {A K : Type} `{EqDecision K} (key : A → K).

(** The groups of distinct keys that cover a list hold, together, the
    rows of the list, each once. *)
Lemma groups_cover (ks : list K) (l : list A) :
  NoDup ks → (∀ x, x ∈ l → key x ∈ ks) →
  l ≡ₚ concat ((λ k, filter (λ x, key x = k) l) <$> ks).
Proof.
  intros Hnd. revert l. induction Hnd as [|k ks Hk Hnd IH]; intros l Hall.
  - destruct l as [|x l]; [done|].
    exfalso. apply (not_elem_of_nil (key x)), Hall. left.
  - rewrite fmap_cons. simpl.
    rewrite <- (filter_app_complement (λ x, key x = k) l) at 1.
    apply Permutation_app_head.
    rewrite (IH (filter (λ x, ¬ key x = k) l)).
    + assert (Heq : (λ k', filter (λ x, key x = k')
                               (filter (λ x, ¬ key x = k) l)) <$> ks
                    = (λ k', filter (λ x, key x = k') l) <$> ks);
        [|by rewrite Heq].
      apply Forall_fmap_ext_1, Forall_forall. intros k' Hk'.
      rewrite list_filter_filter. apply list_filter_iff.
      intros x. split; [tauto|]. intros Hx. split; [done|].
      intros Hxk. apply Hk. by rewrite <- Hxk, Hx.
    + intros x [Hx Hin]%list_elem_of_filter.
      specialize (Hall x Hin). apply elem_of_cons in Hall as [?|?]; done.
Qed.

Lemma groups_of_keys_cover (l : list A) :
  l ≡ₚ concat ((λ k, filter (λ x, key x = k) l) <$> remove_dups (key <$> l)).
Proof.
  apply groups_cover; [apply NoDup_remove_dups|].
  intros x Hx. apply elem_of_remove_dups, list_elem_of_fmap. eauto.
Qed.

End Grouping.

(** ** Regions *)

Section Regions.
Import meshcore_adverts_latest Queries.

Lemma prefix_SEA_US (topic : string) :
  String.prefix "msh/US/SEA/" topic = true → String.prefix "msh/US/" topic = true.
Proof.
  rewrite !prefix_spec. intros [post ->]. by exists ("SEA/" +:+ post).
Qed.

(** X16.  Every node the Seattle query returns is returned by the US
    query, in the same relative order: asking the Seattle question of the
    US result gives the Seattle result. *)
Theorem seattle_nodes_within_us_nodes (view : list NodeState) :
  seattle_nodes view = seattle_nodes (us_nodes view)
  ∧ seattle_nodes view `sublist_of` us_nodes view.
Proof.
  assert (Heq : seattle_nodes view = seattle_nodes (us_nodes view)).
  { unfold seattle_nodes, us_nodes. rewrite list_filter_filter.
    apply list_filter_iff. intros n. split; [|tauto].
    intros [Hb Hp]. split_and!; [done|done|]. by apply prefix_SEA_US. }
  split; [done|]. rewrite Heq. apply sublist_filter.
Qed.

End Regions.

(** ** The bounding-box query *)

Section BoundingBox.
Import Queries.


#[local] Instance last_seen_desc_total : Total last_seen_desc.
Proof. intros a b. unfold last_seen_desc. lia. Qed.

Lemma box_where_keeps (lat_lo lat_hi lon_lo lon_hi : Float64)
    (u : unified_latest_nodeinfo.row) :
  where_keeps (box_where lat_lo lat_hi lon_lo lon_hi u) = true
  ↔ ∃ la lo,
      unified_latest_nodeinfo.latitude u = Some la
      ∧ unified_latest_nodeinfo.longitude u = Some lo
      ∧ PrimFloat.leb lat_lo la = true ∧ PrimFloat.leb la lat_hi = true
      ∧ PrimFloat.leb lon_lo lo = true ∧ PrimFloat.leb lo lon_hi = true.
Proof.
  unfold box_where, between, is_not_null.
  destruct (unified_latest_nodeinfo.latitude u) as [la|],
    (unified_latest_nodeinfo.longitude u) as [lo|]; simpl.
  - destruct (PrimFloat.leb lat_lo la) eqn:H1, (PrimFloat.leb la lat_hi) eqn:H2,
      (PrimFloat.leb lon_lo lo) eqn:H3, (PrimFloat.leb lo lon_hi) eqn:H4;
      simpl;
      (split;
       [intros ?; try done; by exists la, lo
       |intros (? & ? & [= <-] & [= <-] & ? & ? & ? & ?); congruence]).
  - split; [|by intros (? & ? & ? & ? & _)].
    by destruct (PrimFloat.leb lat_lo la && PrimFloat.leb la lat_hi).
  - split; [|by intros (? & ? & ? & _)].
    by destruct (PrimFloat.leb lon_lo lo && PrimFloat.leb lo lon_hi).
  - split; [done|]. by intros (? & ? & ? & _).
Qed.

(** X18.  The bounding-box query returns exactly the rows of the view
    whose latitude and longitude are both present and inside the bounds,
    the most recently seen first.  A row with a NULL coordinate is never
    returned, with or without the two IS NOT NULL conditions: they do not
    change which rows are kept. *)
Theorem nodes_in_box_spec (lat_lo lat_hi lon_lo lon_hi : Float64)
    (view : list unified_latest_nodeinfo.row) :
  (∀ q, q ∈ nodes_in_box lat_lo lat_hi lon_lo lon_hi view
        ↔ ∃ u la lo,
            u ∈ view ∧ q = box_select u
            ∧ unified_latest_nodeinfo.latitude u = Some la
            ∧ unified_latest_nodeinfo.longitude u = Some lo
            ∧ PrimFloat.leb lat_lo la = true ∧ PrimFloat.leb la lat_hi = true
            ∧ PrimFloat.leb lon_lo lo = true ∧ PrimFloat.leb lo lon_hi = true)
  ∧ Sorted (λ a b, box_last_seen b ≤ box_last_seen a)
      (nodes_in_box lat_lo lat_hi lon_lo lon_hi view)
  ∧ (∀ u, where_keeps (box_where lat_lo lat_hi lon_lo lon_hi u)
          = where_keeps
              (and3 (between (unified_latest_nodeinfo.latitude u) lat_lo lat_hi)
                 (between (unified_latest_nodeinfo.longitude u) lon_lo lon_hi))).
Proof.
  split_and!.
  - intros q. unfold nodes_in_box.
    rewrite list_elem_of_fmap.
    setoid_rewrite merge_sort_Permutation.
    setoid_rewrite list_elem_of_filter.
    setoid_rewrite box_where_keeps. naive_solver.
  - unfold nodes_in_box. apply Sorted_fmap with (R1 := last_seen_desc).
    + by intros a b.
    + apply Sorted_merge_sort, _.
  - intros u. unfold box_where, between, is_not_null.
    destruct (unified_latest_nodeinfo.latitude u) as [la|],
      (unified_latest_nodeinfo.longitude u) as [lo|]; simpl;
      repeat match goal with
             | |- context [PrimFloat.leb ?a ?b] => destruct (PrimFloat.leb a b)
             end; done.
Qed.

End BoundingBox.

(** ** Reading the current state from the table *)

Section LatestScan.
Import meshcore_adverts meshcore_adverts_latest Queries.

#[local] Instance ingest_desc_total : Total ingest_desc.
Proof. intros a b. unfold ingest_desc. lia. Qed.

#[local] Instance ingest_desc_trans : Transitive ingest_desc.
Proof. intros a b c. unfold ingest_desc. lia. Qed.

Lemma latest_advert_scan_head (key : string) (tbl : list Advert) (w : Advert) :
  latest_advert_scan key tbl = [w] →
  w ∈ group key tbl
  ∧ ∀ r, r ∈ group key tbl → ingest_timestamp r ≤ ingest_timestamp w.
Proof.
  unfold latest_advert_scan. fold (group key tbl).
  pose proof (StronglySorted_merge_sort ingest_desc (group key tbl)) as Hs.
  pose proof (merge_sort_Permutation ingest_desc (group key tbl)) as Hp.
  destruct (merge_sort ingest_desc (group key tbl)) as [|x rest]; [done|].
  intros [= ->]. split.
  - rewrite <- Hp. left.
  - intros r Hr. rewrite <- Hp in Hr.
    apply elem_of_cons in Hr as [->|Hr]; [done|].
    apply StronglySorted_inv in Hs as [_ Hall].
    rewrite Forall_forall in Hall. by apply Hall.
Qed.

Lemma latest_advert_scan_shape (key : string) (tbl : list Advert) :
  (latest_advert_scan key tbl = [] ∧ group key tbl = [])
  ∨ ∃ w, latest_advert_scan key tbl = [w].
Proof.
  unfold latest_advert_scan. fold (group key tbl).
  pose proof (merge_sort_Permutation ingest_desc (group key tbl)) as Hp.
  destruct (merge_sort ingest_desc (group key tbl)) as [|x rest].
  - left. split; [done|]. symmetry. by apply Permutation_nil_l.
  - right. by exists x.
Qed.

(** X19.  The scan the document calls slow ([WHERE public_key = key
    ORDER BY ingest_timestamp DESC LIMIT 1]) returns at most one row:
    none exactly when the table holds no advert of the key, and
    otherwise an advert of the key with the greatest ingest timestamp.
    The lookup in the view is not a substitute for it: while no row has
    been deleted from the table, no row the view holds under the key has
    a [last_seen] later than the ingest timestamp the scan returns, and
    a row it holds may have an earlier one (after two inserts of N1, at
    1000 and at 2000, the view holds a row with [last_seen] 1000 until a
    merge takes it away). *)
Theorem latest_advert_scan_spec (key : string) :
  (∀ tbl, latest_advert_scan key tbl = []
          ↔ ∀ r, r ∈ tbl → public_key r ≠ key)
  ∧ (∀ tbl, (length (latest_advert_scan key tbl) ≤ 1)%nat)
  ∧ (∀ tbl w, w ∈ latest_advert_scan key tbl →
       w ∈ tbl ∧ public_key w = key
       ∧ ∀ r, r ∈ tbl → public_key r = key →
              ingest_timestamp r ≤ ingest_timestamp w)
  ∧ (∀ ver inserts rows w n,
       stored ver inserts rows →
       w ∈ latest_advert_scan key (concat inserts) →
       n ∈ lookup key rows →
       last_seen n ≤ ingest_timestamp w)
  ∧ (∀ ver, ∃ w rows n,
       latest_advert_scan "N1" (concat [[Sample.alice_1]; [Sample.alice_2]])
       = [w]
       ∧ stored ver [[Sample.alice_1]; [Sample.alice_2]] rows
       ∧ n ∈ lookup "N1" rows
       ∧ last_seen n < ingest_timestamp w).
Proof.
  assert (Hsound : ∀ tbl w, w ∈ latest_advert_scan key tbl →
            w ∈ tbl ∧ public_key w = key
            ∧ ∀ r, r ∈ tbl → public_key r = key →
                   ingest_timestamp r ≤ ingest_timestamp w).
  { intros tbl w Hw.
    destruct (latest_advert_scan_shape key tbl) as [[Hnil _]|[w' Hone]].
    - rewrite Hnil in Hw. by apply elem_of_nil in Hw.
    - rewrite Hone in Hw. apply list_elem_of_singleton in Hw as ->.
      destruct (latest_advert_scan_head key tbl w' Hone) as [Hin Hmax].
      apply list_elem_of_filter in Hin as [? ?]. split_and!; [done|done|].
      intros r Hr Hk. apply Hmax. by apply list_elem_of_filter. }
  split_and!.
  - intros tbl.
    destruct (latest_advert_scan_shape key tbl) as [[Hnil Hg]|[w Hone]].
    + rewrite Hnil. split; [intros _|done].
      intros r Hr Hk.
      by apply (proj1 (filter_nil_iff (λ r, public_key r = key) tbl) Hg r).
    + rewrite Hone. split; [done|]. intros Hnone. exfalso.
      destruct (latest_advert_scan_head key tbl w Hone) as [Hin _].
      apply list_elem_of_filter in Hin as [? ?]. by apply (Hnone w).
  - intros tbl.
    destruct (latest_advert_scan_shape key tbl) as [[-> _]|[w ->]];
      simpl; lia.
  - exact Hsound.
  - intros ver inserts rows w n Hst Hw [Hkey Hn]%list_elem_of_filter.
    destruct (Hsound _ w Hw) as (_ & _ & Hmax).
    destruct (last_seen_of_an_advert ver inserts rows n Hst Hn)
      as (blk & r & Hin & Hr & Hrk & <-).
    apply Hmax; [|congruence]. apply elem_of_concat. by exists blk.
  - intros ver.
    exists Sample.alice_2, (select [Sample.alice_1] ++ select [Sample.alice_2]),
      (select_row "N1" [Sample.alice_1]).
    split_and!; [reflexivity| |left|reflexivity].
    exact (stored_insert _ _ _ _ _
             (stored_insert _ [] [] _ _ (stored_nothing _)
                (reflexivity [Sample.alice_1]))
             (reflexivity [Sample.alice_2])).
Qed.

End LatestScan.

(** ** Recent chat messages *)

Section RecentChat.
Import meshcore_public_channel_messages Queries.

#[local] Instance chat_desc_total : Total chat_desc.
Proof. intros a b. unfold chat_desc. lia. Qed.

#[local] Instance chat_desc_trans : Transitive chat_desc.
Proof. intros a b c. unfold chat_desc. lia. Qed.

(** X20.  The recent-messages query returns at most 50 rows, all of the
    asked channel, newest first, and they are the newest of the channel:
    the number returned is the smaller of 50 and the number of messages of
    the channel, and every message of the channel that is left out is no
    newer than every message returned. *)
Theorem recent_chat_messages_spec (channel : string) (tbl : list row) :
  length (recent_chat_messages channel tbl)
  = (50 `min` length (filter (λ m, channel_hash m = channel) tbl))%nat
  ∧ Forall (λ q, chat_channel_hash q = channel)
      (recent_chat_messages channel tbl)
  ∧ Sorted (λ a b, chat_ingest_timestamp b ≤ chat_ingest_timestamp a)
      (recent_chat_messages channel tbl)
  ∧ ∃ kept left_out,
      recent_chat_messages channel tbl = chat_select <$> kept
      ∧ kept ++ left_out ≡ₚ filter (λ m, channel_hash m = channel) tbl
      ∧ ∀ m q, m ∈ left_out → q ∈ kept →
               ingest_timestamp m ≤ ingest_timestamp q.
Proof.
  unfold recent_chat_messages, recent_chat_kept.
  set (matching := filter (λ m, channel_hash m = channel) tbl).
  pose proof (StronglySorted_merge_sort chat_desc matching) as Hs.
  pose proof (merge_sort_Permutation chat_desc matching) as Hp.
  set (sorted := merge_sort chat_desc matching) in *.
  split_and!.
  - rewrite length_fmap, length_take. by rewrite Hp.
  - apply Forall_fmap, Forall_forall. intros m Hm. simpl.
    assert (Hin : m ∈ sorted).
    { apply elem_of_take in Hm as (i & Hi & _).
      by apply list_elem_of_lookup_2 in Hi. }
    rewrite Hp in Hin. by apply list_elem_of_filter in Hin as [? _].
  - apply Sorted_fmap with (R1 := chat_desc); [by intros a b|].
    apply StronglySorted_Sorted.
    rewrite <- (take_drop 50 sorted) in Hs.
    by apply StronglySorted_app_1_l in Hs.
  - exists (take 50 sorted), (drop 50 sorted). split_and!; [done| |].
    + by rewrite take_drop.
    + intros m q Hm Hq. rewrite <- (take_drop 50 sorted) in Hs.
      by apply (StronglySorted_app_1_elem_of _ _ _ q m Hs).
Qed.

End RecentChat.

(** ** Repeater prefix statistics *)

Section RepeaterPrefixes.
Import meshcore_adverts_latest Queries.

#[local] Instance prefix_order_total : Total prefix_order.
Proof.
  intros a b. unfold prefix_order.
  destruct (Z.lt_trichotomy (node_count a) (node_count b)) as [?|[Heq|?]];
    [right; by left| |left; by left].
  destruct (total String.le (prefix a) (prefix b)); [left|right]; right; done.
Qed.




End RepeaterPrefixes.


(** ** Network path analysis *)

Section PathAnalysis.
Import meshcore_packets Queries.

#[local] Instance path_len_asc_total : Total path_len_asc.
Proof. intros a b. unfold path_len_asc. lia. Qed.

#[local] Instance path_len_asc_trans : Transitive path_len_asc.
Proof. intros a b c. unfold path_len_asc. lia. Qed.

Lemma sumZ_Permutation (l l' : list Z) :
  l ≡ₚ l' → foldr Z.add 0 l = foldr Z.add 0 l'.
Proof. induction 1; simpl; lia. Qed.

Lemma sumZ_group_lengths {K B} (f : K → list B) (ks : list K) :
  foldr Z.add 0 ((λ k, Z.of_nat (length (f k))) <$> ks)
  = Z.of_nat (length (concat (f <$> ks))).
Proof.
  induction ks as [|k ks IH]; [done|].
  rewrite !fmap_cons. cbn [foldr concat]. rewrite length_app, IH. lia.
Qed.

Lemma length_remove_dups {B} `{EqDecision B} (l : list B) :
  (length (remove_dups l) ≤ length l)%nat
  ∧ (l ≠ [] → remove_dups l ≠ []).
Proof.
  split.
  - induction l as [|x l IH]; simpl; [done|]. case_match; simpl; lia.
  - intros Hne Hnil. destruct l as [|x l]; [done|].
    assert (Hx : x ∈ remove_dups (x :: l)) by (apply elem_of_remove_dups; left).
    rewrite Hnil in Hx. by apply elem_of_nil in Hx.
Qed.

Lemma strictly_ascending {B} (f : B → Z) (l : list B) :
  Sorted (λ a b, f a ≤ f b) l → NoDup (f <$> l) →
  StronglySorted (λ a b, f a < f b) l.
Proof.
  intros Hs Hnd.
  assert (Htrans : Transitive (λ a b : B, f a ≤ f b)) by (intros a b c; lia).
  apply Sorted_StronglySorted in Hs; [|done].
  induction Hs as [|x l Hs IH Hall]; [constructor|].
  rewrite fmap_cons in Hnd. apply NoDup_cons in Hnd as [Hx Hnd].
  constructor; [by apply IH|].
  rewrite Forall_forall in *. intros y Hy.
  assert (f x ≠ f y).
  { intros Heq. apply Hx. rewrite Heq. by apply list_elem_of_fmap_2. }
  specialize (Hall y Hy). simpl in Hall. lia.
Qed.

(** X22.  The path analysis has one row per path length that occurs among
    the packets of the last day, in strictly ascending path length.  A
    row's packet count is the number of those packets with its path
    length, its count of sources is at least one and at most the packet
    count, and the packet counts add up to the number of packets of the
    last day.  (The table is assumed to hold fewer than 2^64 rows, the
    range of [count()].) *)
Theorem network_path_analysis_spec (now : DateTime64) (tbl : list Packet) :
  Z.of_nat (length tbl) < 2 ^ 64 →
  (∀ len, (∃ q, q ∈ network_path_analysis now tbl ∧ pa_path_len q = len)
          ↔ ∃ r, r ∈ tbl ∧ now - ms_per_day ≤ ingest_timestamp r
                 ∧ path_len r = len)
  ∧ StronglySorted (λ a b, pa_path_len a < pa_path_len b)
      (network_path_analysis now tbl)
  ∧ Forall (λ q,
              packet_count q
              = Z.of_nat
                  (length (filter (λ r, path_len r = pa_path_len q)
                             (last_day now tbl)))
              ∧ 1 ≤ unique_sources q ≤ packet_count q)
      (network_path_analysis now tbl)
  ∧ foldr Z.add 0 (packet_count <$> network_path_analysis now tbl)
    = Z.of_nat (length (last_day now tbl)).
Proof.
  intros Hsize. unfold network_path_analysis.
  set (window := last_day now tbl).
  set (lens := remove_dups (path_len <$> window)).
  pose proof (merge_sort_Permutation path_len_asc
                ((λ len, path_group len window) <$> lens)) as Hp.
  assert (Hwin : (length window ≤ length tbl)%nat) by apply length_filter.
  assert (Hcount : ∀ len,
            packet_count (path_group len window)
            = Z.of_nat (length (filter (λ r, path_len r = len) window))).
  { intros len. simpl. apply Z.mod_small.
    pose proof (length_filter (λ r, path_len r = len) window). lia. }
  split_and!.
  - intros len. setoid_rewrite Hp. setoid_rewrite list_elem_of_fmap.
    unfold lens. setoid_rewrite elem_of_remove_dups.
    setoid_rewrite list_elem_of_fmap. unfold window, last_day.
    setoid_rewrite list_elem_of_filter. split.
    + intros (q & (len' & -> & r & -> & Hr) & <-). simpl. naive_solver.
    + intros (r & Hr & Ht & <-). exists (path_group (path_len r) window).
      split; [|done]. exists (path_len r). split; [done|]. by exists r.
  - apply strictly_ascending; [apply Sorted_merge_sort, _|].
    rewrite Hp, <- list_fmap_compose.
    rewrite (Forall_fmap_ext_1 _ id lens) by (by apply Forall_forall).
    rewrite list_fmap_id. apply NoDup_remove_dups.
  - rewrite Hp. apply Forall_fmap, Forall_forall. intros len Hlen.
    split; [apply Hcount|]. rewrite Hcount. simpl.
    set (g := filter (λ r, path_len r = len) window).
    assert (Hg : g ≠ []).
    { apply elem_of_remove_dups, list_elem_of_fmap in Hlen as (r & -> & Hr).
      intros Hnil.
      apply (proj1 (filter_nil_iff (λ r', path_len r' = path_len r) window)
               Hnil r); done. }
    set (srcs := (λ r, Neighbors.hex (origin_pubkey r)) <$> g).
    destruct (length_remove_dups srcs) as [Hle Hne].
    assert (Hsrcs : srcs ≠ []) by (unfold srcs; by destruct g).
    specialize (Hne Hsrcs).
    assert (Hlen_srcs : length srcs = length g) by apply length_fmap.
    pose proof (length_filter (λ r, path_len r = len) window) as Hlen_g.
    fold g in Hlen_g.
    rewrite Z.mod_small by lia.
    destruct (remove_dups srcs); [done|]. simpl in *. lia.
  - rewrite (sumZ_Permutation _ _ (fmap_Permutation packet_count _ _ Hp)).
    rewrite <- list_fmap_compose.
    rewrite (Forall_fmap_ext_1 _
               (λ len, Z.of_nat
                         (length (filter (λ r, path_len r = len) window))) lens)
      by (apply Forall_forall; intros len _; apply Hcount).
    rewrite (sumZ_group_lengths (λ len, filter (λ r, path_len r = len) window)).
    f_equal. symmetry. apply Permutation_length.
    apply (groups_of_keys_cover path_len window).
Qed.

End PathAnalysis.

Lemma network_path_analysis_spec_witness :
  foldr Z.add 0
    (Queries.packet_count
       <$> Queries.network_path_analysis Sample.dec_22 Sample.packets)
  = Z.of_nat (length (Queries.last_day Sample.dec_22 Sample.packets)).
Proof.
  apply (network_path_analysis_spec Sample.dec_22 Sample.packets).
  reflexivity.
Defined.

(** ** The partition key and time *)

Section CalendarFacts.
Import Calendar.

(** A day of the era has a day of the year and a year of the era. *)
Lemma doy_range (doe : Z) :
  0 <= doe <= 146096 -> 0 <= doy_of doe <= 365 /\ 0 <= yoe_of doe <= 399.
Proof.
  intros H. unfold doy_of, yoe_of. Z.div_mod_to_equations. lia.
Qed.

(** The month never goes back within a year. *)
Lemma month_code_range (doy : Z) :
  0 <= doy <= 365 ->
  3 <= month_code doy <= 102
  /\ 1 <= month_code doy mod 100 <= 12
  /\ month_code doy <= month_code (doy + 1).
Proof.
  intros H. unfold month_code. cbv zeta.
  destruct (Z.ltb_spec ((5 * doy + 2) / 153) 10),
    (Z.ltb_spec ((5 * (doy + 1) + 2) / 153) 10);
    Z.div_mod_to_equations; lia.
Qed.

(** [civil_year_month], by era and day of the era. *)
Lemma year_month_code (days : Z) :
  exists era doe,
    days + 719468 = era * 146097 + doe /\ 0 <= doe <= 146096
    /\ year_month days = code era doe.
Proof.
  exists ((days + 719468) / 146097),
    (days + 719468 - (days + 719468) / 146097 * 146097).
  split; [lia|].
  assert (0 <= days + 719468 - (days + 719468) / 146097 * 146097 <= 146096)
    as Hdoe by (Z.div_mod_to_equations; lia).
  split; [exact Hdoe|].
  unfold year_month, civil_year_month, code. cbv zeta.
  revert Hdoe.
  generalize (days + 719468 - (days + 719468) / 146097 * 146097).
  generalize ((days + 719468) / 146097).
  intros era doe Hdoe.
  fold (yoe_of doe). fold (doy_of doe).
  destruct (doy_range doe Hdoe) as [Hdoy _].
  unfold month_code. cbv zeta.
  generalize dependent (doy_of doe). generalize (yoe_of doe).
  intros yoe doy Hdoy.
  assert (0 <= (5 * doy + 2) / 153 <= 11) by (Z.div_mod_to_equations; lia).
  generalize dependent ((5 * doy + 2) / 153). intros mp Hmp.
  destruct (Z.ltb_spec mp 10).
  - destruct (Z.leb_spec (mp + 3) 2); lia.
  - destruct (Z.leb_spec (mp - 9) 2); lia.
Qed.

(** The next day, within a century of the era: the next day of the
    same year, or the first day of the next year. *)
Lemma step_in_century (doe k : Z) :
  0 <= k <= 3 -> 36524 * k <= doe -> doe + 1 < 36524 * (k + 1) ->
  (yoe_of (doe + 1) = yoe_of doe /\ doy_of (doe + 1) = doy_of doe + 1)
  \/ (yoe_of (doe + 1) = yoe_of doe + 1 /\ doy_of (doe + 1) = 0).
Proof.
  intros Hk Hlo Hhi. unfold doy_of, yoe_of.
  assert (doe / 36524 = k) as -> by (Z.div_mod_to_equations; nia).
  assert ((doe + 1) / 36524 = k) as -> by (Z.div_mod_to_equations; nia).
  assert (doe / 146096 = 0) as -> by (Z.div_mod_to_equations; lia).
  assert ((doe + 1) / 146096 = 0) as -> by (Z.div_mod_to_equations; lia).
  assert (k = 0 \/ k = 1 \/ k = 2 \/ k = 3) as [->|[->|[->| ->]]] by lia.
  all: Z.div_mod_to_equations; lia.
Qed.

(** The same across the centuries of an era. *)
Lemma step_in_era (doe : Z) :
  0 <= doe < 146096 ->
  (yoe_of (doe + 1) = yoe_of doe /\ doy_of (doe + 1) = doy_of doe + 1)
  \/ (yoe_of (doe + 1) = yoe_of doe + 1 /\ doy_of (doe + 1) = 0).
Proof.
  intros H.
  destruct (Z.eq_dec doe 36523) as [->|?]; [right; by vm_compute|].
  destruct (Z.eq_dec doe 73047) as [->|?]; [right; by vm_compute|].
  destruct (Z.eq_dec doe 109571) as [->|?]; [right; by vm_compute|].
  destruct (Z.eq_dec doe 146095) as [->|?]; [left; by vm_compute|].
  apply (step_in_century doe (doe / 36524)); Z.div_mod_to_equations; lia.
Qed.

Lemma code_last_day : yoe_of 146096 = 399 /\ doy_of 146096 = 365
  /\ yoe_of 0 = 0 /\ doy_of 0 = 0 /\ month_code 0 = 3 /\ month_code 365 = 102.
Proof. by vm_compute. Qed.

Lemma code_step (era doe : Z) :
  0 <= doe <= 146096 ->
  (doe < 146096 -> code era doe <= code era (doe + 1))
  /\ code era 146096 <= code (era + 1) 0.
Proof.
  intros Hdoe. unfold code.
  destruct code_last_day as (-> & -> & -> & -> & -> & ->).
  split; [|lia]. intros Hlt.
  destruct (doy_range doe Hdoe) as [Hdoy _].
  destruct (month_code_range (doy_of doe) Hdoy) as (Hc & _ & Hmono).
  destruct (step_in_era doe) as [[-> ->]|[-> ->]]; [lia|lia|].
  destruct code_last_day as (_ & _ & _ & _ & -> & _). lia.
Qed.

(** The next day is in the same month or a later one. *)
Lemma year_month_step (days : Z) : year_month days <= year_month (days + 1).
Proof.
  destruct (year_month_code days) as (e & doe & Hz & Hdoe & ->).
  destruct (year_month_code (days + 1)) as (e' & doe' & Hz' & Hdoe' & ->).
  destruct (code_step e doe Hdoe) as [Hin Hlast].
  assert ((e' = e /\ doe' = doe + 1) \/ (e' = e + 1 /\ doe' = 0 /\ doe = 146096))
    as [[-> ->]|(-> & -> & ->)] by lia.
  - apply Hin. lia.
  - exact Hlast.
Qed.

Lemma year_month_mono (d1 d2 : Z) : d1 <= d2 -> year_month d1 <= year_month d2.
Proof.
  intros H. replace d2 with (d1 + (d2 - d1)) by lia.
  assert (Hn : 0 <= d2 - d1) by lia. revert Hn.
  generalize (d2 - d1). apply natlike_ind.
  - rewrite Z.add_0_r. lia.
  - intros n Hn IH. replace (d1 + Z.succ n) with (d1 + n + 1) by lia.
    pose proof (year_month_step (d1 + n)). lia.
Qed.

Lemma toYYYYMM_mono (t1 t2 : DateTime64) :
  t1 <= t2 -> toYYYYMM t1 <= toYYYYMM t2.
Proof.
  intros H. apply (year_month_mono (t1 / ms_per_day) (t2 / ms_per_day)).
  apply Z.div_le_mono; [reflexivity|exact H].
Qed.

(** X23.  The partition key follows time: [toYYYYMM] never decreases as
    the timestamp grows, its last two digits are a month from 1 to 12,
    the timestamps of one partition form an interval, and every row of
    a partition of [meshcore_packets] with a smaller key was ingested
    before every row of a partition with a greater key. *)
Theorem toYYYYMM_monotone :
  (forall t1 t2, t1 <= t2 -> toYYYYMM t1 <= toYYYYMM t2)
  /\ (forall t, 1 <= toYYYYMM t mod 100 <= 12)
  /\ (forall t1 t2 t3, t1 <= t2 <= t3 -> toYYYYMM t1 = toYYYYMM t3 ->
        toYYYYMM t2 = toYYYYMM t1)
  /\ (forall (tbl : list Packet) b1 b2 r1 r2,
        r1 ∈ MergeTree.stored_packets tbl b1 ->
        r2 ∈ MergeTree.stored_packets tbl b2 ->
        b1 < b2 ->
        meshcore_packets.ingest_timestamp r1
        < meshcore_packets.ingest_timestamp r2).
Proof.
  split_and!.
  - exact toYYYYMM_mono.
  - intros t. change (toYYYYMM t) with (year_month (t / ms_per_day)).
    destruct (year_month_code (t / ms_per_day)) as (e & doe & _ & Hdoe & ->).
    destruct (doy_range doe Hdoe) as [Hdoy _].
    destruct (month_code_range (doy_of doe) Hdoy) as (_ & Hm & _).
    unfold code.
    replace (40000 * e + 100 * yoe_of doe + month_code (doy_of doe))
      with (month_code (doy_of doe) + (400 * e + yoe_of doe) * 100) by lia.
    rewrite Z.mod_add by lia. exact Hm.
  - intros t1 t2 t3 [H12 H23] Heq.
    pose proof (toYYYYMM_mono t1 t2 H12).
    pose proof (toYYYYMM_mono t2 t3 H23). lia.
  - intros tbl b1 b2 r1 r2. unfold MergeTree.stored_packets.
    rewrite !merge_sort_Permutation, !list_elem_of_filter.
    unfold meshcore_packets.partition_key. intros [Hb1 _] [Hb2 _] Hlt.
    destruct (Z.lt_ge_cases (meshcore_packets.ingest_timestamp r1)
                (meshcore_packets.ingest_timestamp r2)) as [|Hge]; [done|].
    pose proof (toYYYYMM_mono _ _ Hge). lia.
Qed.

End CalendarFacts.
